(** * firewall-controller: NetworkPolicy to HCN ACL conversion and the
      endpoint ACL manager

    A shallow embedding of [internal/converter/policy.go] (the converter) and
    of the [hcn] package's [Manager] (rule application, removal and tracking),
    with the properties stated about them.

    Conventions.
    - Go's [uint16] priority is a [Z] in [[0, 2^16)]; [*priority++] wraps.
    - A Go [for _, x := range xs] loop is a [fold_left] over the loop's
      mutable variables; [continue] returns them unchanged.
    - A Go pointer that may be [nil] is an [option].
    - The manager's [map[string][]RuleSet] is a [gmap string (list RuleSet)];
      a [nil] slice and an empty slice are both the empty list.
    - The manager is run by one caller at a time: its mutex and its logger
      are left out.  The host behind [HCNClient] is any implementation of the
      interface, with a state of its own. *)

From stdpp Require Import gmap strings list fin_maps.
From Stdlib Require Import ZArith DecimalString DecimalZ.

Local Open Scope Z_scope.

(** ** Kubernetes API types (k8s.io/api, k8s.io/apimachinery) *)

(** [corev1.Protocol] is a string type with three named constants. *)
Definition Protocol : Type := string.
Definition ProtocolTCP : Protocol := "TCP".
Definition ProtocolUDP : Protocol := "UDP".
Definition ProtocolSCTP : Protocol := "SCTP".

(** [intstr.Type] is an [int64]; [intstr.Int = 0] and [intstr.String = 1]. *)
Definition intstr_Int : Z := 0.
Definition intstr_String : Z := 1.

Record IntOrString : Type := {
  Type_ : Z;
  IntVal : Z;      (* int32 *)
  StrVal : string
}.

Definition FromInt (n : Z) : IntOrString :=
  {| Type_ := intstr_Int; IntVal := n; StrVal := "" |}.
Definition FromString (s : string) : IntOrString :=
  {| Type_ := intstr_String; IntVal := 0; StrVal := s |}.

Record LabelSelector : Type := {
  MatchLabels : list (string * string)
}.

Record IPBlock : Type := {
  CIDR : string;
  Except : list string
}.

Record NetworkPolicyPeer : Type := {
  PodSelector : option LabelSelector;
  NamespaceSelector : option LabelSelector;
  peer_IPBlock : option IPBlock
}.

Record NetworkPolicyPort : Type := {
  port_Protocol : option Protocol;
  port_Port : option IntOrString;
  port_EndPort : option Z
}.

Record NetworkPolicyIngressRule : Type := {
  ingress_Ports : list NetworkPolicyPort;
  ingress_From : list NetworkPolicyPeer
}.

Record NetworkPolicyEgressRule : Type := {
  egress_Ports : list NetworkPolicyPort;
  egress_To : list NetworkPolicyPeer
}.

Record NetworkPolicySpec : Type := {
  spec_PodSelector : LabelSelector;
  Ingress : list NetworkPolicyIngressRule;
  Egress : list NetworkPolicyEgressRule
}.

Record NetworkPolicy : Type := {
  Namespace : string;
  np_Name : string;
  Spec : NetworkPolicySpec
}.

(** ** hcsshim types (github.com/Microsoft/hcsshim/hcn) *)

Inductive ActionType : Type := ActionTypeAllow | ActionTypeBlock.
Inductive DirectionType : Type := DirectionTypeIn | DirectionTypeOut.

(** ** [hcn.ACLRule] of this repository *)

Record ACLRule : Type := {
  Name : string;
  Action : ActionType;
  Direction : DirectionType;
  Protocol_ : string;
  LocalPorts : string;
  RemotePorts : string;
  RemoteAddresses : string;
  Priority : Z     (* uint16 *)
}.

(** ** The converter: [internal/converter/policy.go] *)

(** [*priority++] on a [uint16]. *)
Definition uint16_incr (priority : Z) : Z := (priority + 1) mod 2 ^ 16.

(** [getPeerAddress]: only [IPBlock] peers have an address. *)
Definition getPeerAddress (peer : NetworkPolicyPeer) : string :=
  match peer_IPBlock peer with
  | Some b => CIDR b
  | None => ""
  end.

Definition protocolToNumber (proto : option Protocol) : string :=
  match proto with
  | None => "6"
  | Some p =>
      if decide (p = ProtocolTCP) then "6"
      else if decide (p = ProtocolUDP) then "17"
      else if decide (p = ProtocolSCTP) then "132"
      else "6"
  end.

(** [fmt.Sprintf("%d", n)]: the decimal numeral, with a minus sign for a
    negative number. *)
Definition Sprintf_d (n : Z) : string :=
  NilEmpty.string_of_int (Z.to_int n).

(** The number a decimal numeral denotes, if it is one. *)
Definition decimal_value (s : string) : option Z :=
  Z.of_int <$> NilEmpty.int_of_string s.

Definition portToString (port : option IntOrString) : string :=
  match port with
  | None => ""
  | Some port =>
      if decide (Type_ port = intstr_Int) then Sprintf_d (IntVal port)
      else if decide (Type_ port = intstr_String) then ""
      else ""
  end.

(** The loops of the converter carry the slice built so far and the shared
    priority counter. *)
Definition conv_state : Type := list ACLRule * Z.

Definition convertIngressRule (np : NetworkPolicy)
    (ingressRule : NetworkPolicyIngressRule) (priority : Z) : conv_state :=
  let name := Namespace np +:+ "/" +:+ np_Name np +:+ "-ingress" in
  if decide (length (ingress_Ports ingressRule) = 0%nat) then
    if decide (length (ingress_From ingressRule) = 0%nat) then
      let rule := {| Name := name;
                     Action := ActionTypeAllow;
                     Direction := DirectionTypeIn;
                     Protocol_ := "";
                     LocalPorts := "";
                     RemotePorts := "";
                     RemoteAddresses := "0.0.0.0/0";
                     Priority := priority |} in
      ([] ++ [rule], uint16_incr priority)
    else
      fold_left (fun '(rules, priority) from =>
        let remoteAddr := getPeerAddress from in
        if decide (remoteAddr = "") then (rules, priority)
        else
          let rule := {| Name := name;
                         Action := ActionTypeAllow;
                         Direction := DirectionTypeIn;
                         Protocol_ := "";
                         LocalPorts := "";
                         RemotePorts := "";
                         RemoteAddresses := remoteAddr;
                         Priority := priority |} in
          (rules ++ [rule], uint16_incr priority))
        (ingress_From ingressRule) ([], priority)
  else
    fold_left (fun '(rules, priority) port =>
      if decide (length (ingress_From ingressRule) = 0%nat) then
        let rule := {| Name := name;
                       Action := ActionTypeAllow;
                       Direction := DirectionTypeIn;
                       Protocol_ := protocolToNumber (port_Protocol port);
                       LocalPorts := portToString (port_Port port);
                       RemotePorts := "";
                       RemoteAddresses := "0.0.0.0/0";
                       Priority := priority |} in
        (rules ++ [rule], uint16_incr priority)
      else
        fold_left (fun '(rules, priority) from =>
          let remoteAddr := getPeerAddress from in
          if decide (remoteAddr = "") then (rules, priority)
          else
            let rule := {| Name := name;
                           Action := ActionTypeAllow;
                           Direction := DirectionTypeIn;
                           Protocol_ := protocolToNumber (port_Protocol port);
                           LocalPorts := portToString (port_Port port);
                           RemotePorts := "";
                           RemoteAddresses := remoteAddr;
                           Priority := priority |} in
            (rules ++ [rule], uint16_incr priority))
          (ingress_From ingressRule) (rules, priority))
      (ingress_Ports ingressRule) ([], priority).

Definition convertEgressRule (np : NetworkPolicy)
    (egressRule : NetworkPolicyEgressRule) (priority : Z) : conv_state :=
  let name := Namespace np +:+ "/" +:+ np_Name np +:+ "-egress" in
  if decide (length (egress_Ports egressRule) = 0%nat) then
    if decide (length (egress_To egressRule) = 0%nat) then
      let rule := {| Name := name;
                     Action := ActionTypeAllow;
                     Direction := DirectionTypeOut;
                     Protocol_ := "";
                     LocalPorts := "";
                     RemotePorts := "";
                     RemoteAddresses := "0.0.0.0/0";
                     Priority := priority |} in
      ([] ++ [rule], uint16_incr priority)
    else
      fold_left (fun '(rules, priority) to =>
        let remoteAddr := getPeerAddress to in
        if decide (remoteAddr = "") then (rules, priority)
        else
          let rule := {| Name := name;
                         Action := ActionTypeAllow;
                         Direction := DirectionTypeOut;
                         Protocol_ := "";
                         LocalPorts := "";
                         RemotePorts := "";
                         RemoteAddresses := remoteAddr;
                         Priority := priority |} in
          (rules ++ [rule], uint16_incr priority))
        (egress_To egressRule) ([], priority)
  else
    fold_left (fun '(rules, priority) port =>
      if decide (length (egress_To egressRule) = 0%nat) then
        let rule := {| Name := name;
                       Action := ActionTypeAllow;
                       Direction := DirectionTypeOut;
                       Protocol_ := protocolToNumber (port_Protocol port);
                       LocalPorts := "";
                       RemotePorts := portToString (port_Port port);
                       RemoteAddresses := "0.0.0.0/0";
                       Priority := priority |} in
        (rules ++ [rule], uint16_incr priority)
      else
        fold_left (fun '(rules, priority) to =>
          let remoteAddr := getPeerAddress to in
          if decide (remoteAddr = "") then (rules, priority)
          else
            let rule := {| Name := name;
                           Action := ActionTypeAllow;
                           Direction := DirectionTypeOut;
                           Protocol_ := protocolToNumber (port_Protocol port);
                           LocalPorts := "";
                           RemotePorts := portToString (port_Port port);
                           RemoteAddresses := remoteAddr;
                           Priority := priority |} in
            (rules ++ [rule], uint16_incr priority))
          (egress_To egressRule) (rules, priority))
      (egress_Ports egressRule) ([], priority).

(** The two top-level loops append each rule's expansion and pass the
    counter on; the counter starts at [uint16(100)]. *)
Definition NetworkPolicyToACLRules_from (np : NetworkPolicy) (start : Z)
    : conv_state :=
  let st :=
    fold_left (fun '(rules, priority) ingressRule =>
      let '(ingressRules, priority) :=
        convertIngressRule np ingressRule priority in
      (rules ++ ingressRules, priority))
      (Ingress (Spec np)) ([], start) in
  fold_left (fun '(rules, priority) egressRule =>
    let '(egressRules, priority) :=
      convertEgressRule np egressRule priority in
    (rules ++ egressRules, priority))
    (Egress (Spec np)) st.

Definition NetworkPolicyToACLRules (np : NetworkPolicy) : list ACLRule :=
  fst (NetworkPolicyToACLRules_from np 100).

(** ** The expansion in the specification's words

    A peer is resolvable when [getPeerAddress] gives it an address.  A
    directional rule expands to one (port, address) pair when it has neither
    ports nor peers, to one pair per resolvable peer when it has no ports, to
    one pair per port when it has no peers, and otherwise to the cross-product
    with the port as the outer index. *)

Definition resolvable (peer : NetworkPolicyPeer) : Prop :=
  getPeerAddress peer ≠ "".

#[global] Instance resolvable_dec peer : Decision (resolvable peer).
Proof. unfold resolvable. apply _. Defined.

Definition resolved (peers : list NetworkPolicyPeer) : list string :=
  getPeerAddress <$> filter resolvable peers.

Definition expansion (ports : list NetworkPolicyPort)
    (peers : list NetworkPolicyPeer)
    : list (option NetworkPolicyPort * string) :=
  match ports, peers with
  | [], [] => [(None, "0.0.0.0/0")]
  | [], _ => (fun addr => (None, addr)) <$> resolved peers
  | _, [] => (fun port => (Some port, "0.0.0.0/0")) <$> ports
  | _, _ => list_prod (Some <$> ports) (resolved peers)
  end.

Definition expansion_size (ports : list NetworkPolicyPort)
    (peers : list NetworkPolicyPeer) : nat :=
  match ports, peers with
  | [], [] => 1
  | [], _ => length (filter resolvable peers)
  | _, [] => length ports
  | _, _ => length ports * length (filter resolvable peers)
  end.

(** The rule emitted for one pair, as a function of its priority. *)
Definition emitted_rule (np : NetworkPolicy) (dir : DirectionType)
    (pa : option NetworkPolicyPort * string) (priority : Z) : ACLRule :=
  let proto := match pa.1 with
               | Some port => protocolToNumber (port_Protocol port)
               | None => ""
               end in
  let ports := match pa.1 with
               | Some port => portToString (port_Port port)
               | None => ""
               end in
  match dir with
  | DirectionTypeIn =>
      {| Name := Namespace np +:+ "/" +:+ np_Name np +:+ "-ingress";
         Action := ActionTypeAllow;
         Direction := DirectionTypeIn;
         Protocol_ := proto;
         LocalPorts := ports;
         RemotePorts := "";
         RemoteAddresses := pa.2;
         Priority := priority |}
  | DirectionTypeOut =>
      {| Name := Namespace np +:+ "/" +:+ np_Name np +:+ "-egress";
         Action := ActionTypeAllow;
         Direction := DirectionTypeOut;
         Protocol_ := proto;
         LocalPorts := "";
         RemotePorts := ports;
         RemoteAddresses := pa.2;
         Priority := priority |}
  end.

(** All pairs of a policy in emission order: the ingress rules in order, then
    the egress rules in order. *)
Definition policy_expansion (np : NetworkPolicy)
    : list (DirectionType * (option NetworkPolicyPort * string)) :=
  flat_map (fun r => pair DirectionTypeIn
                       <$> expansion (ingress_Ports r) (ingress_From r))
           (Ingress (Spec np))
  ++ flat_map (fun r => pair DirectionTypeOut
                          <$> expansion (egress_Ports r) (egress_To r))
              (Egress (Spec np)).

Definition policy_size (np : NetworkPolicy) : nat :=
  sum_list ((fun r => expansion_size (ingress_Ports r) (ingress_From r))
              <$> Ingress (Spec np))
  + sum_list ((fun r => expansion_size (egress_Ports r) (egress_To r))
                <$> Egress (Spec np)).

(** The rules of a policy, each still waiting for its priority. *)
Definition templates (np : NetworkPolicy) : list (Z → ACLRule) :=
  (fun dpa => emitted_rule np dpa.1 dpa.2) <$> policy_expansion np.

(** The output the specification describes: the [k]-th pair of the expansion
    becomes a rule with priority [100 + k]. *)
Definition expected_rules (np : NetworkPolicy) : list ACLRule :=
  imap (fun k dpa => emitted_rule np dpa.1 dpa.2 (100 + Z.of_nat k))
       (policy_expansion np).

Definition priorities (rules : list ACLRule) : list Z := Priority <$> rules.

(** Priorities [100, 101, 102, ...] in emission order. *)
Definition counts_up_from_100 (prios : list Z) : Prop :=
  ∀ (k : nat) (p : Z), prios !! k = Some p → p = 100 + Z.of_nat k.

(** Each priority is below every later one. *)
Definition strictly_increasing (prios : list Z) : Prop :=
  ∀ (i j : nat) (p q : Z),
    (i < j)%nat → prios !! i = Some p → prios !! j = Some q → p < q.

(** Some priority occurs at two positions. *)
Definition has_repeat (prios : list Z) : Prop :=
  ∃ (i j : nat) (p : Z), i ≠ j ∧ prios !! i = Some p ∧ prios !! j = Some p.

(** The counter wrapped somewhere: a rule has a priority that is not above
    its predecessor's. *)
Definition wraps (prios : list Z) : Prop :=
  ∃ (k : nat) (p q : Z), prios !! k = Some p ∧ prios !! S k = Some q ∧ q ≤ p.

(** ** Sample policies (from [policy_test.go]) *)

Definition cidr_peer (cidr : string) : NetworkPolicyPeer :=
  {| PodSelector := None; NamespaceSelector := None;
     peer_IPBlock := Some {| CIDR := cidr; Except := [] |} |}.

Definition pod_selector_peer (k v : string) : NetworkPolicyPeer :=
  {| PodSelector := Some {| MatchLabels := [(k, v)] |};
     NamespaceSelector := None; peer_IPBlock := None |}.

Definition tcp_port (n : Z) : NetworkPolicyPort :=
  {| port_Protocol := Some ProtocolTCP; port_Port := Some (FromInt n);
     port_EndPort := None |}.

Definition allow_web : NetworkPolicy :=
  {| Namespace := "default"; np_Name := "allow-web";
     Spec := {| spec_PodSelector := {| MatchLabels := [("app", "web")] |};
                Ingress := [ {| ingress_Ports := [tcp_port 80; tcp_port 443];
                                ingress_From := [cidr_peer "10.0.0.0/8";
                                                 cidr_peer "192.168.0.0/16"] |} ];
                Egress := [] |} |}.


(** [number start ts] gives the [k]-th of the rules [ts], each still waiting
    for its priority, the value of a [uint16] counter after [k] increments
    from [start]. *)
Definition number (start : Z) (ts : list (Z → ACLRule)) : list ACLRule :=
  imap (fun k t => t ((start + Z.of_nat k) mod 2 ^ 16)) ts.

(** A policy with one ingress rule of [n] ports and no peers: it expands to
    [n] rules. *)
Definition many_ports (n : Z) : NetworkPolicy :=
  {| Namespace := "default"; np_Name := "wide";
     Spec := {| spec_PodSelector := {| MatchLabels := [] |};
                Ingress := [ {| ingress_Ports :=
                                  replicate (Z.to_nat n) (tcp_port 80);
                                ingress_From := [] |} ];
                Egress := [] |} |}.

(** * The endpoint ACL manager: package [hcn] *)

(** ** hcsshim endpoint and policy types *)

Record HostComputeEndpoint : Type := {
  Id : string;
  ep_Name : string
}.

Inductive RequestType : Type :=
  RequestTypeAdd | RequestTypeUpdate | RequestTypeRemove | RequestTypeRefresh.

Inductive EndpointPolicyType : Type := PortMapping | ACL | QOS | OutBoundNAT.

(** The fields of [hcn.AclPolicySetting] that [buildPolicies] sets. *)
Record AclPolicySetting : Type := {
  acl_Protocols : string;
  acl_Action : ActionType;
  acl_Direction : DirectionType;
  acl_LocalAddresses : string;
  acl_RemoteAddresses : string;
  acl_LocalPorts : string;
  acl_RemotePorts : string;
  acl_Priority : Z
}.

Record EndpointPolicy : Type := {
  policy_Type : EndpointPolicyType;
  Settings : string     (* json.RawMessage *)
}.

Record PolicyEndpointRequest : Type := {
  Policies : list EndpointPolicy
}.

(** [hcn.RuleSet] of this repository. *)
Record RuleSet : Type := {
  EndpointID : string;
  rs_Policies : list EndpointPolicy
}.

(** ** Errors

    A Go [error] is [nil] or a value; the values the manager builds are kept
    with the arguments of their format strings.  [option error] is a Go
    [error], [None] being [nil]. *)
#[local] Set Warnings "-register-all".

Inductive error : Type :=
  | errors_New (msg : string)
      (* an error made elsewhere: by the host, by [encoding/json] *)
  | ErrListEndpoints (cause : error)
      (* "failed to list HCN endpoints: %w" *)
  | ErrBuildPolicies (cause : error)
      (* "failed to build HCN policies: %w" *)
  | ErrMarshal (i : nat) (cause : error)
      (* "failed to marshal ACL setting for rule %d: %w" *)
  | ErrEndpoint (id : string) (cause : error)
      (* "endpoint %s: %w" *)
  | ErrGetEndpoint (id : string) (cause : error)
      (* "get endpoint %s: %w" *)
  | ErrApplyFailed (failed total : nat) (errs : list error)
      (* "failed to apply policies to %d/%d endpoints: %v" *)
  | ErrRemoveFailed (failed total : nat) (errs : list error).
      (* "failed to remove policies from %d/%d endpoints: %v" *)

Inductive result (A : Type) : Type :=
  | Ok (a : A)
  | Err (e : error).
Arguments Ok {A} a.
Arguments Err {A} e.

(** The aggregate errors: the ones that count failed endpoints. *)
Definition is_aggregate (err : option error) : Prop :=
  match err with
  | Some (ErrApplyFailed _ _ _) | Some (ErrRemoveFailed _ _ _) => True
  | _ => False
  end.

(** ** The host: interface [HCNClient]

    An implementation has a state of its own ([W]: the host's networking
    stack, or the maps of a test double); every method may read and change
    it. *)
Class HCNClient (W : Type) : Type := {
  ListEndpoints : W → result (list HostComputeEndpoint) * W;
  GetEndpointByID : string → W → result HostComputeEndpoint * W;
  ApplyEndpointPolicy :
    HostComputeEndpoint → RequestType → PolicyEndpointRequest →
    W → option error * W;
  RemoveEndpointPolicy :
    HostComputeEndpoint → RequestType → PolicyEndpointRequest →
    W → option error * W
}.

(** ** What a call of the manager does, in program order

    Every call of a client method is recorded with its result, and every
    write to the tracking map with its arguments.  The record is a ghost
    field of the manager: no code reads it. *)
Inductive Effect : Type :=
  | CallListEndpoints (r : result (list HostComputeEndpoint))
  | CallGetEndpointByID (id : string) (r : result HostComputeEndpoint)
  | CallApplyEndpointPolicy (endpoint : HostComputeEndpoint)
      (requestType : RequestType) (request : PolicyEndpointRequest)
      (r : option error)
  | CallRemoveEndpointPolicy (endpoint : HostComputeEndpoint)
      (requestType : RequestType) (request : PolicyEndpointRequest)
      (r : option error)
  | MapStore (policyKey : string) (ruleSets : list RuleSet)
  | MapDelete (policyKey : string).

Record Manager (W : Type) : Type := {
  client : W;
  appliedPolicies : gmap string (list RuleSet);
  effects : list Effect
}.
Arguments client {W} _.
Arguments appliedPolicies {W} _.
Arguments effects {W} _.

Definition NewManager {W : Type} (c : W) : Manager W :=
  {| client := c; appliedPolicies := ∅; effects := [] |}.

(** The host changes between two calls of the manager. *)
Definition with_client {W : Type} (m : Manager W) (c : W) : Manager W :=
  {| client := c; appliedPolicies := appliedPolicies m; effects := effects m |}.

(** ** A state monad over the manager *)

Definition M (W A : Type) : Type := Manager W → A * Manager W.

Definition ret {W A : Type} (a : A) : M W A := fun m => (a, m).

Definition bind {W A B : Type} (c : M W A) (k : A → M W B) : M W B :=
  fun m => let '(a, m) := c m in k a m.

Notation "'let*' x ':=' c 'in' k" := (bind c (fun x => k))
  (at level 10, x pattern, c at level 100, k at level 200).

(** [for _, x := range xs { acc = body(x, acc) }] *)
Fixpoint for_range {W A S : Type} (xs : list A) (body : A → S → M W S)
    (acc : S) : M W S :=
  match xs with
  | [] => ret acc
  | x :: xs => let* acc := body x acc in for_range xs body acc
  end.

Definition record {W : Type} (e : Effect) (m : Manager W) : Manager W :=
  {| client := client m; appliedPolicies := appliedPolicies m;
     effects := effects m ++ [e] |}.

Section manager.
Context {W : Type} `{!HCNClient W}.

(** [json.Marshal] at type [hcn.AclPolicySetting]. *)
Variable json_Marshal : AclPolicySetting → result string.

(** *** Calls of the client *)

Definition call_ListEndpoints : M W (result (list HostComputeEndpoint)) :=
  fun m =>
    let '(r, c) := ListEndpoints (client m) in
    (r, record (CallListEndpoints r) (with_client m c)).

Definition call_GetEndpointByID (id : string)
    : M W (result HostComputeEndpoint) :=
  fun m =>
    let '(r, c) := GetEndpointByID id (client m) in
    (r, record (CallGetEndpointByID id r) (with_client m c)).

Definition call_ApplyEndpointPolicy (endpoint : HostComputeEndpoint)
    (requestType : RequestType) (request : PolicyEndpointRequest)
    : M W (option error) :=
  fun m =>
    let '(r, c) :=
      ApplyEndpointPolicy endpoint requestType request (client m) in
    (r, record (CallApplyEndpointPolicy endpoint requestType request r)
          (with_client m c)).

Definition call_RemoveEndpointPolicy (endpoint : HostComputeEndpoint)
    (requestType : RequestType) (request : PolicyEndpointRequest)
    : M W (option error) :=
  fun m =>
    let '(r, c) :=
      RemoveEndpointPolicy endpoint requestType request (client m) in
    (r, record (CallRemoveEndpointPolicy endpoint requestType request r)
          (with_client m c)).

(** *** The tracking map *)

(** [m.appliedPolicies[policyKey] = ruleSets] *)
Definition map_store (policyKey : string) (ruleSets : list RuleSet)
    : M W unit :=
  fun m =>
    (tt, record (MapStore policyKey ruleSets)
           {| client := client m;
              appliedPolicies := <[policyKey := ruleSets]> (appliedPolicies m);
              effects := effects m |}).

(** [ruleSets, exists := m.appliedPolicies[policyKey]] *)
Definition map_lookup (policyKey : string) : M W (option (list RuleSet)) :=
  fun m => (appliedPolicies m !! policyKey, m).

(** [delete(m.appliedPolicies, policyKey)] *)
Definition map_delete (policyKey : string) : M W unit :=
  fun m =>
    (tt, record (MapDelete policyKey)
           {| client := client m;
              appliedPolicies := delete policyKey (appliedPolicies m);
              effects := effects m |}).

(** *** [buildPolicies] *)

Definition aclSetting (rule : ACLRule) : AclPolicySetting :=
  {| acl_Protocols := Protocol_ rule;
     acl_Action := Action rule;
     acl_Direction := Direction rule;
     acl_LocalAddresses := "";
     acl_RemoteAddresses := RemoteAddresses rule;
     acl_LocalPorts := LocalPorts rule;
     acl_RemotePorts := RemotePorts rule;
     acl_Priority := Priority rule |}.

(** The loop of [buildPolicies] from index [i] on, [policies] being the
    slice built so far; an error returns at once. *)
Fixpoint buildPolicies_from (i : nat) (rules : list ACLRule)
    (policies : list EndpointPolicy) : result (list EndpointPolicy) :=
  match rules with
  | [] => Ok policies
  | rule :: rules =>
      match json_Marshal (aclSetting rule) with
      | Err err => Err (ErrMarshal i err)
      | Ok settingsJSON =>
          let policy := {| policy_Type := ACL; Settings := settingsJSON |} in
          buildPolicies_from (S i) rules (policies ++ [policy])
      end
  end.

Definition buildPolicies (rules : list ACLRule)
    : result (list EndpointPolicy) :=
  buildPolicies_from 0 rules [].

(** *** [ApplyACLRules] *)

Definition ApplyACLRules (policyKey : string) (rules : list ACLRule)
    : M W (option error) :=
  let* listed := call_ListEndpoints in
  match listed with
  | Err err => ret (Some (ErrListEndpoints err))
  | Ok endpoints =>
      if decide (length endpoints = 0%nat) then ret None
      else
        match buildPolicies rules with
        | Err err => ret (Some (ErrBuildPolicies err))
        | Ok policies =>
            let* (ruleSets, applyErrors) :=
              for_range endpoints
                (fun endpoint '(ruleSets, applyErrors) =>
                   let request := {| Policies := policies |} in
                   let* err := call_ApplyEndpointPolicy endpoint
                                 RequestTypeAdd request in
                   match err with
                   | Some err =>
                       ret (ruleSets,
                            applyErrors ++ [ErrEndpoint (Id endpoint) err])
                   | None =>
                       ret (ruleSets ++ [{| EndpointID := Id endpoint;
                                            rs_Policies := policies |}],
                            applyErrors)
                   end)
                ([], []) in
            let* _ := map_store policyKey ruleSets in
            if decide (0 < length applyErrors)%nat then
              ret (Some (ErrApplyFailed (length applyErrors)
                           (length endpoints) applyErrors))
            else ret None
        end
  end.

(** *** [RemoveACLRules] *)

Definition RemoveACLRules (policyKey : string) : M W (option error) :=
  let* tracked := map_lookup policyKey in
  match tracked with
  | None => ret None
  | Some ruleSets =>
      let* _ := map_delete policyKey in
      let* removeErrors :=
        for_range ruleSets
          (fun ruleSet removeErrors =>
             let* got := call_GetEndpointByID (EndpointID ruleSet) in
             match got with
             | Err err =>
                 ret (removeErrors
                        ++ [ErrGetEndpoint (EndpointID ruleSet) err])
             | Ok endpoint =>
                 let request := {| Policies := rs_Policies ruleSet |} in
                 let* err := call_RemoveEndpointPolicy endpoint
                               RequestTypeRemove request in
                 match err with
                 | Some err =>
                     ret (removeErrors
                            ++ [ErrEndpoint (EndpointID ruleSet) err])
                 | None => ret removeErrors
                 end
             end)
          [] in
      if decide (0 < length removeErrors)%nat then
        ret (Some (ErrRemoveFailed (length removeErrors)
                     (length ruleSets) removeErrors))
      else ret None
  end.

(** *** The read-only accessors *)

Definition GetAppliedPolicies (policyKey : string) (m : Manager W)
    : list RuleSet * bool :=
  match appliedPolicies m !! policyKey with
  | Some ruleSets => (ruleSets, true)
  | None => ([], false)
  end.

(** Go ranges over a map in no particular order; the order here is the
    map's. *)
Definition ListTrackedPolicies (m : Manager W) : list string :=
  (map_to_list (appliedPolicies m)).*1.

End manager.

(** ** Reading the record of effects *)

(** What was recorded between the states [m] and [m']. *)
Definition since {W : Type} (m m' : Manager W) : list Effect :=
  drop (length (effects m)) (effects m').

(** A per-endpoint operation that failed: an endpoint lookup, an
    installation or a removal that returned an error. *)
Definition op_failed (e : Effect) : bool :=
  match e with
  | CallGetEndpointByID _ (Err _) => true
  | CallApplyEndpointPolicy _ _ _ (Some _) => true
  | CallRemoveEndpointPolicy _ _ _ (Some _) => true
  | _ => false
  end.

Definition failed (log : list Effect) : nat :=
  length (filter (fun e => Is_true (op_failed e)) log).

(** The endpoint an effect starts work on: an installation on an enumerated
    endpoint, or the lookup of a tracked endpoint. *)
Definition op_target (e : Effect) : option string :=
  match e with
  | CallApplyEndpointPolicy endpoint _ _ _ => Some (Id endpoint)
  | CallGetEndpointByID id _ => Some id
  | _ => None
  end.

Definition targets (log : list Effect) : list string := omap op_target log.

(** A call that can change the host: an installation or a removal. *)
Definition is_host_mutation (e : Effect) : bool :=
  match e with
  | CallApplyEndpointPolicy _ _ _ _ | CallRemoveEndpointPolicy _ _ _ _ => true
  | _ => false
  end.

Definition is_map_write (e : Effect) : bool :=
  match e with
  | MapStore _ _ | MapDelete _ => true
  | _ => false
  end.

(** The effects of the installation loop, given what the host answered for
    each endpoint. *)
Definition apply_calls (policies : list EndpointPolicy)
    (endpoints : list HostComputeEndpoint) (outcomes : list (option error))
    : list Effect :=
  zip_with (fun endpoint o =>
              CallApplyEndpointPolicy endpoint RequestTypeAdd
                {| Policies := policies |} o)
           endpoints outcomes.

(** The rule sets of the endpoints that accepted the policies. *)
Definition applied_ruleSets (policies : list EndpointPolicy)
    (endpoints : list HostComputeEndpoint) (outcomes : list (option error))
    : list RuleSet :=
  omap (fun eo : HostComputeEndpoint * option error =>
          match eo.2 with
          | None => Some {| EndpointID := Id eo.1; rs_Policies := policies |}
          | Some _ => None
          end)
       (zip endpoints outcomes).

(** The errors of the endpoints that refused them. *)
Definition apply_errors (endpoints : list HostComputeEndpoint)
    (outcomes : list (option error)) : list error :=
  omap (fun eo : HostComputeEndpoint * option error =>
          ErrEndpoint (Id eo.1) <$> eo.2)
       (zip endpoints outcomes).

(** What can happen to one tracked rule set during removal. *)
Inductive remove_outcome : Type :=
  | GetFailed (err : error)
  | RemoveFailed (endpoint : HostComputeEndpoint) (err : error)
  | Removed (endpoint : HostComputeEndpoint).

Definition remove_calls (ruleSet : RuleSet) (o : remove_outcome)
    : list Effect :=
  let id := EndpointID ruleSet in
  let request := {| Policies := rs_Policies ruleSet |} in
  match o with
  | GetFailed err => [CallGetEndpointByID id (Err err)]
  | RemoveFailed endpoint err =>
      [CallGetEndpointByID id (Ok endpoint);
       CallRemoveEndpointPolicy endpoint RequestTypeRemove request (Some err)]
  | Removed endpoint =>
      [CallGetEndpointByID id (Ok endpoint);
       CallRemoveEndpointPolicy endpoint RequestTypeRemove request None]
  end.

Definition remove_error (ruleSet : RuleSet) (o : remove_outcome)
    : option error :=
  match o with
  | GetFailed err => Some (ErrGetEndpoint (EndpointID ruleSet) err)
  | RemoveFailed _ err => Some (ErrEndpoint (EndpointID ruleSet) err)
  | Removed _ => None
  end.

Definition remove_effects (ruleSets : list RuleSet)
    (outcomes : list remove_outcome) : list Effect :=
  concat (zip_with remove_calls ruleSets outcomes).

Definition remove_errors (ruleSets : list RuleSet)
    (outcomes : list remove_outcome) : list error :=
  omap (fun ro : RuleSet * remove_outcome => remove_error ro.1 ro.2)
       (zip ruleSets outcomes).

(** ** Test doubles *)

(** [mockHCNClient] of [acl_test.go]: every method fails when its error field
    is set; otherwise installations and removals are appended to a map from
    endpoint id to policies. *)
Record mockHCNClient : Type := {
  endpoints : list HostComputeEndpoint;
  listEndpointsErr : option error;
  getEndpointErr : option error;
  applyPolicyErr : option error;
  removePolicyErr : option error;
  mock_appliedPolicies : gmap string (list EndpointPolicy);
  mock_removedPolicies : gmap string (list EndpointPolicy)
}.

#[global] Instance mockHCNClient_client : HCNClient mockHCNClient := {|
  ListEndpoints c :=
    match listEndpointsErr c with
    | Some err => (Err err, c)
    | None => (Ok (endpoints c), c)
    end;
  GetEndpointByID id c :=
    match getEndpointErr c with
    | Some err => (Err err, c)
    | None =>
        match List.find (fun ep => bool_decide (Id ep = id)) (endpoints c) with
        | Some ep => (Ok ep, c)
        | None => (Err (errors_New "endpoint not found"), c)
        end
    end;
  ApplyEndpointPolicy endpoint _ request c :=
    match applyPolicyErr c with
    | Some err => (Some err, c)
    | None =>
        (None,
         {| endpoints := endpoints c;
            listEndpointsErr := listEndpointsErr c;
            getEndpointErr := getEndpointErr c;
            applyPolicyErr := applyPolicyErr c;
            removePolicyErr := removePolicyErr c;
            mock_appliedPolicies :=
              <[Id endpoint :=
                  default [] (mock_appliedPolicies c !! Id endpoint)
                  ++ Policies request]> (mock_appliedPolicies c);
            mock_removedPolicies := mock_removedPolicies c |})
    end;
  RemoveEndpointPolicy endpoint _ request c :=
    match removePolicyErr c with
    | Some err => (Some err, c)
    | None =>
        (None,
         {| endpoints := endpoints c;
            listEndpointsErr := listEndpointsErr c;
            getEndpointErr := getEndpointErr c;
            applyPolicyErr := applyPolicyErr c;
            removePolicyErr := removePolicyErr c;
            mock_appliedPolicies := mock_appliedPolicies c;
            mock_removedPolicies :=
              <[Id endpoint :=
                  default [] (mock_removedPolicies c !! Id endpoint)
                  ++ Policies request]> (mock_removedPolicies c) |})
    end
|}.

Definition newMockHCNClient : mockHCNClient :=
  {| endpoints := []; listEndpointsErr := None; getEndpointErr := None;
     applyPolicyErr := None; removePolicyErr := None;
     mock_appliedPolicies := ∅; mock_removedPolicies := ∅ |}.

Definition mock_with_endpoints (eps : list HostComputeEndpoint)
    : mockHCNClient :=
  {| endpoints := eps; listEndpointsErr := None; getEndpointErr := None;
     applyPolicyErr := None; removePolicyErr := None;
     mock_appliedPolicies := ∅; mock_removedPolicies := ∅ |}.

Definition mock_failing_apply (eps : list HostComputeEndpoint)
    : mockHCNClient :=
  {| endpoints := eps; listEndpointsErr := None; getEndpointErr := None;
     applyPolicyErr := Some (errors_New "failed to apply policy");
     removePolicyErr := None;
     mock_appliedPolicies := ∅; mock_removedPolicies := ∅ |}.

Definition mock_failing_list : mockHCNClient :=
  {| endpoints := [];
     listEndpointsErr := Some (errors_New "failed to list endpoints");
     getEndpointErr := None; applyPolicyErr := None; removePolicyErr := None;
     mock_appliedPolicies := ∅; mock_removedPolicies := ∅ |}.

(** A host that refuses installation and removal on some of its endpoints. *)
Record partialClient : Type := {
  partial_endpoints : list HostComputeEndpoint;
  refusing : list string
}.

#[global] Instance partialClient_client : HCNClient partialClient := {|
  ListEndpoints c := (Ok (partial_endpoints c), c);
  GetEndpointByID id c :=
    match List.find (fun ep => bool_decide (Id ep = id))
                    (partial_endpoints c) with
    | Some ep => (Ok ep, c)
    | None => (Err (errors_New "endpoint not found"), c)
    end;
  ApplyEndpointPolicy endpoint _ _ c :=
    if decide (Id endpoint ∈ refusing c)
    then (Some (errors_New "refused"), c) else (None, c);
  RemoveEndpointPolicy endpoint _ _ c :=
    if decide (Id endpoint ∈ refusing c)
    then (Some (errors_New "refused"), c) else (None, c)
|}.

Definition ep1 : HostComputeEndpoint := {| Id := "ep-1"; ep_Name := "endpoint-1" |}.
Definition ep2 : HostComputeEndpoint := {| Id := "ep-2"; ep_Name := "endpoint-2" |}.

Definition allow_http : ACLRule :=
  {| Name := "allow-http"; Action := ActionTypeAllow;
     Direction := DirectionTypeIn; Protocol_ := "6"; LocalPorts := "80";
     RemotePorts := ""; RemoteAddresses := "0.0.0.0/0"; Priority := 100 |}.

(** Two encoders to run the manager with: one that always succeeds, and one
    that rejects every setting. *)
Definition plain_Marshal (s : AclPolicySetting) : result string :=
  Ok (acl_Protocols s +:+ ";" +:+ acl_LocalPorts s +:+ ";"
      +:+ acl_RemotePorts s +:+ ";" +:+ acl_RemoteAddresses s +:+ ";"
      +:+ Sprintf_d (acl_Priority s)).

Definition rejecting_Marshal (s : AclPolicySetting) : result string :=
  Err (errors_New "json: unsupported value").

Definition partial_host : partialClient :=
  {| partial_endpoints := [ep1; ep2]; refusing := ["ep-2"] |}.

Definition http_policy : EndpointPolicy :=
  {| policy_Type := ACL; Settings := "6;80;;0.0.0.0/0;100" |}.

(** The manager after a successful apply on one endpoint, the endpoint then
    gone from the host. *)
Definition tracked_then_no_endpoints : Manager mockHCNClient :=
  with_client
    (ApplyACLRules plain_Marshal "default/test-policy" [allow_http]
       (NewManager (mock_with_endpoints [ep1]))).2
    (mock_with_endpoints []).


(** ** Policies compared by the converter *)

(** The policy with its egress rules dropped. *)
Definition ingress_only (np : NetworkPolicy) : NetworkPolicy :=
  {| Namespace := Namespace np; np_Name := np_Name np;
     Spec := {| spec_PodSelector := spec_PodSelector (Spec np);
                Ingress := Ingress (Spec np);
                Egress := [] |} |}.

(** What the converter reads of a peer, a port and a policy: the CIDR of an
    address block, the protocol and the port of a port entry, the names and
    the two rule lists of a policy. *)
Definition bare_peer (peer : NetworkPolicyPeer) : NetworkPolicyPeer :=
  {| PodSelector := None; NamespaceSelector := None;
     peer_IPBlock := (fun b => {| CIDR := CIDR b; Except := [] |})
                       <$> peer_IPBlock peer |}.

Definition bare_port (port : NetworkPolicyPort) : NetworkPolicyPort :=
  {| port_Protocol := port_Protocol port; port_Port := port_Port port;
     port_EndPort := None |}.

Definition bare_policy (np : NetworkPolicy) : NetworkPolicy :=
  {| Namespace := Namespace np; np_Name := np_Name np;
     Spec := {| spec_PodSelector := {| MatchLabels := [] |};
                Ingress :=
                  (fun r => {| ingress_Ports := bare_port <$> ingress_Ports r;
                               ingress_From := bare_peer <$> ingress_From r |})
                    <$> Ingress (Spec np);
                Egress :=
                  (fun r => {| egress_Ports := bare_port <$> egress_Ports r;
                               egress_To := bare_peer <$> egress_To r |})
                    <$> Egress (Spec np) |} |}.

(** A directional rule that emits nothing: it names peers, and none of them
    has an address. *)
Definition silent (peers : list NetworkPolicyPeer) : Prop :=
  peers ≠ [] ∧ Forall (fun peer => getPeerAddress peer = "") peers.

(** ** The reconciler: [internal/controller/networkpolicy_controller.go] *)

(** [types.NamespacedName] and its [String] method: namespace, a slash, name. *)
Record NamespacedName : Type := {
  nn_Namespace : string;
  nn_Name : string
}.

Definition NamespacedName_String (n : NamespacedName) : string :=
  nn_Namespace n +:+ "/" +:+ nn_Name n.

(** [ctrl.Request] and [ctrl.Result]; a [time.Duration] counts nanoseconds. *)
Record Request : Type := {
  req_NamespacedName : NamespacedName
}.

Record Result : Type := {
  Requeue : bool;
  RequeueAfter : Z
}.

Definition time_Second : Z := 1000000000.

Section controller.
Context {W : Type} `{!HCNClient W}.

Variable json_Marshal : AclPolicySetting → result string.

(** [r.Get(ctx, name, &np)]: the cluster's answer for a name, and
    [apierrors.IsNotFound] on its errors. *)
Variable Get : NamespacedName → result NetworkPolicy.
Variable IsNotFound : error → bool.

Definition reconcileDelete (policyKey : string) : M W (Result * option error) :=
  let* err := RemoveACLRules policyKey in
  match err with
  | Some _ => ret ({| Requeue := false; RequeueAfter := 0 |}, None)
  | None => ret ({| Requeue := false; RequeueAfter := 0 |}, None)
  end.

Definition Reconcile (req : Request) : M W (Result * option error) :=
  match Get (req_NamespacedName req) with
  | Err err =>
      if IsNotFound err
      then reconcileDelete (NamespacedName_String (req_NamespacedName req))
      else ret ({| Requeue := false; RequeueAfter := 0 |}, Some err)
  | Ok np =>
      let rules := NetworkPolicyToACLRules np in
      let policyKey := NamespacedName_String (req_NamespacedName req) in
      let* err := ApplyACLRules json_Marshal policyKey rules in
      match err with
      | Some err =>
          ret ({| Requeue := false; RequeueAfter := 30 * time_Second |},
               Some err)
      | None => ret ({| Requeue := false; RequeueAfter := 0 |}, None)
      end
  end.

(** The states a manager can be in: new, or after a call of
    [ApplyACLRules] or [RemoveACLRules], the host changing in between as it
    likes. *)
Inductive reachable : Manager W → Prop :=
  | reachable_new (c : W) : reachable (NewManager c)
  | reachable_host (m : Manager W) (c : W) :
      reachable m → reachable (with_client m c)
  | reachable_apply (m : Manager W) (policyKey : string)
      (rules : list ACLRule) :
      reachable m →
      reachable (ApplyACLRules json_Marshal policyKey rules m).2
  | reachable_remove (m : Manager W) (policyKey : string) :
      reachable m → reachable (RemoveACLRules policyKey m).2.

End controller.

(** What every tracked entry looks like: its rule sets all hold the same
    policies, and these are ACL policies. *)
Definition entry_well_formed (ruleSets : list RuleSet) : Prop :=
  ∃ policies,
    Forall (fun p => policy_Type p = ACL) policies
    ∧ Forall (fun rs => rs_Policies rs = policies) ruleSets.

(** A cluster that holds one policy, and its not-found error. *)
Definition cluster_of (np : NetworkPolicy) (n : NamespacedName)
    : result NetworkPolicy :=
  if decide (nn_Namespace n = Namespace np ∧ nn_Name n = np_Name np)
  then Ok np else Err (errors_New "not found").

Definition empty_cluster (n : NamespacedName) : result NetworkPolicy :=
  Err (errors_New "not found").

Definition unreachable_cluster (n : NamespacedName) : result NetworkPolicy :=
  Err (errors_New "connection refused").

Definition is_not_found (err : error) : bool :=
  match err with
  | errors_New msg => bool_decide (msg = "not found")
  | _ => false
  end.

Definition allow_web_request : Request :=
  {| req_NamespacedName :=
       {| nn_Namespace := "default"; nn_Name := "allow-web" |} |}.

(** The effects [ApplyACLRules] can have for a key: the enumeration,
    installations with request type [Add], and a store under the key. *)
Definition apply_effect (policyKey : string) (e : Effect) : Prop :=
  match e with
  | CallListEndpoints _ => True
  | CallApplyEndpointPolicy _ requestType _ _ => requestType = RequestTypeAdd
  | MapStore k _ => k = policyKey
  | _ => False
  end.

(** The effects [RemoveACLRules] can have for a key: endpoint lookups,
    removals with request type [Remove], and the deletion of the key. *)
Definition remove_effect (policyKey : string) (e : Effect) : Prop :=
  match e with
  | CallGetEndpointByID _ _ => True
  | CallRemoveEndpointPolicy _ requestType _ _ =>
      requestType = RequestTypeRemove
  | MapDelete k => k = policyKey
  | _ => False
  end.

(** The rule set tracked for an endpoint that accepted the policies. *)
Definition rule_set_of (policies : list EndpointPolicy)
    (endpoint : HostComputeEndpoint) : RuleSet :=
  {| EndpointID := Id endpoint; rs_Policies := policies |}.

(** The policy [buildPolicies] makes of a rule whose setting encodes. *)
Definition encodes_to (json_Marshal : AclPolicySetting → result string)
    (rule : ACLRule) (policy : EndpointPolicy) : Prop :=
  policy_Type policy = ACL
  ∧ json_Marshal (aclSetting rule) = Ok (Settings policy).

(** The mock host with endpoint lookup failing
    ([TestRemoveACLRules_GetEndpointError]). *)
Definition mock_failing_lookup (eps : list HostComputeEndpoint)
    : mockHCNClient :=
  {| endpoints := eps; listEndpointsErr := None;
     getEndpointErr := Some (errors_New "endpoint not found");
     applyPolicyErr := None; removePolicyErr := None;
     mock_appliedPolicies := ∅; mock_removedPolicies := ∅ |}.

(** The manager after a successful apply on one endpoint. *)
Definition tracked_on_ep1 : Manager mockHCNClient :=
  (ApplyACLRules plain_Marshal "default/test-policy" [allow_http]
     (NewManager (mock_with_endpoints [ep1]))).2.
Example allow_web_rules :
  NetworkPolicyToACLRules allow_web =
  [ {| Name := "default/allow-web-ingress"; Action := ActionTypeAllow;
       Direction := DirectionTypeIn; Protocol_ := "6"; LocalPorts := "80";
       RemotePorts := ""; RemoteAddresses := "10.0.0.0/8"; Priority := 100 |};
    {| Name := "default/allow-web-ingress"; Action := ActionTypeAllow;
       Direction := DirectionTypeIn; Protocol_ := "6"; LocalPorts := "80";
       RemotePorts := ""; RemoteAddresses := "192.168.0.0/16"; Priority := 101 |};
    {| Name := "default/allow-web-ingress"; Action := ActionTypeAllow;
       Direction := DirectionTypeIn; Protocol_ := "6"; LocalPorts := "443";
       RemotePorts := ""; RemoteAddresses := "10.0.0.0/8"; Priority := 102 |};
    {| Name := "default/allow-web-ingress"; Action := ActionTypeAllow;
       Direction := DirectionTypeIn; Protocol_ := "6"; LocalPorts := "443";
       RemotePorts := ""; RemoteAddresses := "192.168.0.0/16"; Priority := 103 |} ].
Proof. vm_compute. reflexivity. Qed.

Example allow_web_expected :
  expected_rules allow_web = NetworkPolicyToACLRules allow_web.
Proof. vm_compute. reflexivity. Qed.

(** * Properties of the converter *)

(** ** The counter *)

Lemma uint16_incr_mod (s : Z) : uint16_incr (s mod 2 ^ 16) = (s + 1) mod 2 ^ 16.
Proof. unfold uint16_incr. by rewrite Z.add_mod_idemp_l. Qed.

Lemma uint16_incr_range (p : Z) : 0 ≤ uint16_incr p < 2 ^ 16.
Proof. unfold uint16_incr. apply Z.mod_pos_bound. lia. Qed.

Lemma number_nil (s : Z) : number s [] = [].
Proof. done. Qed.

Lemma number_cons (s : Z) t ts :
  number s (t :: ts) = t (s mod 2 ^ 16) :: number (s + 1) ts.
Proof.
  unfold number. rewrite imap_cons. f_equal.
  - by rewrite Z.add_0_r.
  - apply imap_ext. intros k u _. simpl. do 2 f_equal. lia.
Qed.

Lemma number_app (s : Z) ts us :
  number s (ts ++ us) = number s ts ++ number (s + Z.of_nat (length ts)) us.
Proof.
  revert s. induction ts as [|t ts IH]; intros s.
  - simpl. by rewrite Z.add_0_r.
  - rewrite <- app_comm_cons, (number_cons s t (ts ++ us)), IH.
    rewrite (number_cons s t ts), <- app_comm_cons. cbn [length].
    do 3 f_equal. lia.
Qed.

Lemma length_number (s : Z) ts : length (number s ts) = length ts.
Proof. unfold number. by rewrite length_imap. Qed.

Lemma number_lookup (s : Z) ts (k : nat) :
  number s ts !! k = (fun t => t ((s + Z.of_nat k) mod 2 ^ 16)) <$> ts !! k.
Proof. unfold number. by rewrite list_lookup_imap. Qed.

Lemma number_fmap {A} (f : A → Z → ACLRule) (s : Z) (l : list A) :
  number s (f <$> l) = imap (fun k x => f x ((s + Z.of_nat k) mod 2 ^ 16)) l.
Proof. unfold number. by rewrite imap_fmap. Qed.

(** ** The loops *)

(** The loop over the peers of a rule: one rule per resolvable peer, appended
    to the slice, the counter advanced once for each. *)
Lemma peers_loop (mk : string → Z → ACLRule) (peers : list NetworkPolicyPeer)
    (rules : list ACLRule) (s : Z) :
  fold_left (fun '(rules, priority) peer =>
      if decide (getPeerAddress peer = "") then (rules, priority)
      else (rules ++ [mk (getPeerAddress peer) priority],
            uint16_incr priority))
    peers (rules, s mod 2 ^ 16)
  = (rules ++ number s (mk <$> resolved peers),
     (s + Z.of_nat (length (resolved peers))) mod 2 ^ 16).
Proof.
  revert rules s. induction peers as [|peer peers IH]; intros rules s.
  - simpl. by rewrite app_nil_r, Z.add_0_r.
  - cbn [fold_left]. unfold resolved. rewrite filter_cons.
    destruct (decide (getPeerAddress peer = "")) as [He|Hne].
    + rewrite decide_False by (unfold resolvable; congruence).
      apply IH.
    + rewrite decide_True by done.
      rewrite uint16_incr_mod, IH. unfold resolved.
      rewrite !fmap_cons, number_cons, <- app_assoc. simpl.
      do 2 f_equal. lia.
Qed.

(** The loop over the ports of a rule without peers. *)
Lemma ports_loop (mk : NetworkPolicyPort → Z → ACLRule)
    (ports : list NetworkPolicyPort) (rules : list ACLRule) (s : Z) :
  fold_left (fun '(rules, priority) port =>
      (rules ++ [mk port priority], uint16_incr priority))
    ports (rules, s mod 2 ^ 16)
  = (rules ++ number s (mk <$> ports),
     (s + Z.of_nat (length ports)) mod 2 ^ 16).
Proof.
  revert rules s. induction ports as [|port ports IH]; intros rules s.
  - simpl. by rewrite app_nil_r, Z.add_0_r.
  - cbn [fold_left]. rewrite uint16_incr_mod, IH.
    rewrite fmap_cons, number_cons, <- app_assoc. simpl.
    do 2 f_equal. lia.
Qed.

(** The nested loops: ports outside, peers inside. *)
Lemma ports_peers_loop (mk : NetworkPolicyPort → string → Z → ACLRule)
    (ports : list NetworkPolicyPort) (peers : list NetworkPolicyPeer)
    (rules : list ACLRule) (s : Z) :
  fold_left (fun '(rules, priority) port =>
      fold_left (fun '(rules, priority) peer =>
          if decide (getPeerAddress peer = "") then (rules, priority)
          else (rules ++ [mk port (getPeerAddress peer) priority],
                uint16_incr priority))
        peers (rules, priority))
    ports (rules, s mod 2 ^ 16)
  = (rules ++ number s ((fun pa => mk pa.1 pa.2)
                          <$> list_prod ports (resolved peers)),
     (s + Z.of_nat (length ports * length (resolved peers))) mod 2 ^ 16).
Proof.
  revert rules s. induction ports as [|port ports IH]; intros rules s.
  - simpl. by rewrite app_nil_r, Z.add_0_r.
  - cbn [fold_left].
    rewrite (peers_loop (mk port) peers rules s), IH.
    cbn [list_prod]. rewrite fmap_app, number_app, <- app_assoc.
    rewrite <- !list_fmap_compose, !length_fmap. simpl.
    do 2 f_equal. lia.
Qed.

(** The loop over the rules of one direction. *)
Lemma rules_loop {R : Type} (conv : R → Z → conv_state)
    (exp : R → list (Z → ACLRule)) :
  (∀ r s, conv r (s mod 2 ^ 16)
          = (number s (exp r), (s + Z.of_nat (length (exp r))) mod 2 ^ 16)) →
  ∀ (rs : list R) (rules : list ACLRule) (s : Z),
    fold_left (fun '(rules, priority) r =>
        let '(converted, priority) := conv r priority in
        (rules ++ converted, priority))
      rs (rules, s mod 2 ^ 16)
    = (rules ++ number s (flat_map exp rs),
       (s + Z.of_nat (length (flat_map exp rs))) mod 2 ^ 16).
Proof.
  intros Hconv rs. induction rs as [|r rs IH]; intros rules s.
  - simpl. by rewrite app_nil_r, Z.add_0_r.
  - cbn [fold_left flat_map]. rewrite Hconv, IH.
    rewrite number_app, length_app, <- app_assoc.
    do 2 f_equal. lia.
Qed.

(** ** Code against specification, one rule *)

Lemma list_prod_fmap_l {A B C} (f : A → B) (l : list A) (k : list C) :
  list_prod (f <$> l) k = (fun ac => (f ac.1, ac.2)) <$> list_prod l k.
Proof.
  induction l as [|a l IH]; [done|].
  cbn [list_prod fmap list_fmap]. rewrite fmap_app, IH.
  f_equal. rewrite <- list_fmap_compose. done.
Qed.

Lemma length_resolved peers :
  length (resolved peers) = length (filter resolvable peers).
Proof. unfold resolved. by rewrite length_fmap. Qed.

Lemma length_expansion ports peers :
  length (expansion ports peers) = expansion_size ports peers.
Proof.
  destruct ports as [|port ports], peers as [|peer peers];
    cbn [expansion expansion_size].
  - done.
  - by rewrite length_fmap, length_resolved.
  - by rewrite length_fmap.
  - by rewrite length_prod, length_fmap, length_resolved.
Qed.

Lemma convertIngressRule_spec np r (s : Z) :
  convertIngressRule np r (s mod 2 ^ 16)
  = (number s (emitted_rule np DirectionTypeIn
                 <$> expansion (ingress_Ports r) (ingress_From r)),
     (s + Z.of_nat (expansion_size (ingress_Ports r) (ingress_From r)))
       mod 2 ^ 16).
Proof.
  rewrite <- length_expansion. unfold convertIngressRule.
  destruct (ingress_Ports r) as [|port ports] eqn:Hports,
           (ingress_From r) as [|peer peers] eqn:Hpeers.
  - rewrite !decide_True by done. cbn [expansion fmap list_fmap length].
    by rewrite number_cons, uint16_incr_mod.
  - rewrite decide_True, decide_False by done.
    etrans; [apply (peers_loop (fun addr =>
                      emitted_rule np DirectionTypeIn (None, addr)))|].
    cbn [expansion]. by rewrite <- list_fmap_compose, length_fmap.
  - rewrite decide_False by done.
    etrans; [apply (ports_loop (fun port =>
                      emitted_rule np DirectionTypeIn (Some port, "0.0.0.0/0")))|].
    cbn [expansion]. by rewrite <- list_fmap_compose, length_fmap.
  - rewrite decide_False by done.
    etrans; [apply (ports_peers_loop (fun port addr =>
                      emitted_rule np DirectionTypeIn (Some port, addr)))|].
    cbn [expansion].
    rewrite list_prod_fmap_l, <- list_fmap_compose, length_fmap, length_prod.
    done.
Qed.

Lemma convertEgressRule_spec np r (s : Z) :
  convertEgressRule np r (s mod 2 ^ 16)
  = (number s (emitted_rule np DirectionTypeOut
                 <$> expansion (egress_Ports r) (egress_To r)),
     (s + Z.of_nat (expansion_size (egress_Ports r) (egress_To r)))
       mod 2 ^ 16).
Proof.
  rewrite <- length_expansion. unfold convertEgressRule.
  destruct (egress_Ports r) as [|port ports] eqn:Hports,
           (egress_To r) as [|peer peers] eqn:Hpeers.
  - rewrite !decide_True by done. cbn [expansion fmap list_fmap length].
    by rewrite number_cons, uint16_incr_mod.
  - rewrite decide_True, decide_False by done.
    etrans; [apply (peers_loop (fun addr =>
                      emitted_rule np DirectionTypeOut (None, addr)))|].
    cbn [expansion]. by rewrite <- list_fmap_compose, length_fmap.
  - rewrite decide_False by done.
    etrans; [apply (ports_loop (fun port =>
                      emitted_rule np DirectionTypeOut (Some port, "0.0.0.0/0")))|].
    cbn [expansion]. by rewrite <- list_fmap_compose, length_fmap.
  - rewrite decide_False by done.
    etrans; [apply (ports_peers_loop (fun port addr =>
                      emitted_rule np DirectionTypeOut (Some port, addr)))|].
    cbn [expansion].
    rewrite list_prod_fmap_l, <- list_fmap_compose, length_fmap, length_prod.
    done.
Qed.

(** ** Code against specification, the whole policy *)

Lemma fmap_flat_map {A B C} (f : B → C) (g : A → list B) (l : list A) :
  f <$> flat_map g l = flat_map (fun x => f <$> g x) l.
Proof.
  induction l as [|x l IH]; [done|].
  cbn [flat_map]. by rewrite fmap_app, IH.
Qed.

Lemma length_flat_map {A B} (g : A → list B) (l : list A) :
  length (flat_map g l) = sum_list ((fun x => length (g x)) <$> l).
Proof.
  induction l as [|x l IH]; [done|].
  cbn [flat_map]. rewrite length_app, IH. done.
Qed.

Lemma length_policy_expansion np :
  length (policy_expansion np) = policy_size np.
Proof.
  unfold policy_expansion, policy_size.
  rewrite length_app, !length_flat_map. f_equal.
  - f_equal. apply list_fmap_ext. intros _ r _.
    by rewrite length_fmap, length_expansion.
  - f_equal. apply list_fmap_ext. intros _ r _.
    by rewrite length_fmap, length_expansion.
Qed.

Lemma length_templates np : length (templates np) = policy_size np.
Proof. unfold templates. by rewrite length_fmap, length_policy_expansion. Qed.

Lemma templates_split np :
  templates np
  = flat_map (fun r => emitted_rule np DirectionTypeIn
                         <$> expansion (ingress_Ports r) (ingress_From r))
             (Ingress (Spec np))
    ++ flat_map (fun r => emitted_rule np DirectionTypeOut
                            <$> expansion (egress_Ports r) (egress_To r))
                (Egress (Spec np)).
Proof.
  unfold templates, policy_expansion.
  rewrite fmap_app, !fmap_flat_map.
  f_equal; apply flat_map_ext; intros r; by rewrite <- list_fmap_compose.
Qed.

Lemma NetworkPolicyToACLRules_from_spec np (s : Z) :
  NetworkPolicyToACLRules_from np (s mod 2 ^ 16)
  = (number s (templates np), (s + Z.of_nat (policy_size np)) mod 2 ^ 16).
Proof.
  unfold NetworkPolicyToACLRules_from.
  rewrite (rules_loop (convertIngressRule np)
             (fun r => emitted_rule np DirectionTypeIn
                         <$> expansion (ingress_Ports r) (ingress_From r))).
  2:{ intros r s'. by rewrite convertIngressRule_spec, length_fmap,
        length_expansion. }
  rewrite (rules_loop (convertEgressRule np)
             (fun r => emitted_rule np DirectionTypeOut
                         <$> expansion (egress_Ports r) (egress_To r))).
  2:{ intros r s'. by rewrite convertEgressRule_spec, length_fmap,
        length_expansion. }
  rewrite <- length_templates, templates_split, number_app, length_app.
  cbn [app]. do 2 f_equal. lia.
Qed.

Lemma NetworkPolicyToACLRules_number np :
  NetworkPolicyToACLRules np = number 100 (templates np).
Proof.
  unfold NetworkPolicyToACLRules.
  change 100 with (100 mod 2 ^ 16) at 1.
  by rewrite NetworkPolicyToACLRules_from_spec.
Qed.

Lemma length_NetworkPolicyToACLRules np :
  length (NetworkPolicyToACLRules np) = policy_size np.
Proof.
  by rewrite NetworkPolicyToACLRules_number, length_number, length_templates.
Qed.

(** The priority of the [k]-th emitted rule. *)
Lemma priorities_lookup np (k : nat) :
  (k < policy_size np)%nat →
  priorities (NetworkPolicyToACLRules np) !! k
  = Some ((100 + Z.of_nat k) mod 2 ^ 16).
Proof.
  intros Hk. unfold priorities.
  rewrite list_lookup_fmap, NetworkPolicyToACLRules_number, number_lookup.
  rewrite <- length_templates in Hk.
  destruct (lookup_lt_is_Some_2 _ _ Hk) as [t Ht]. rewrite Ht. cbn.
  f_equal. unfold templates in Ht. rewrite list_lookup_fmap in Ht.
  destruct (policy_expansion np !! k) as [[dir pa]|]; simplify_eq/=.
  by destruct dir.
Qed.

Lemma priorities_lookup_Some np (k : nat) (p : Z) :
  priorities (NetworkPolicyToACLRules np) !! k = Some p →
  (k < policy_size np)%nat ∧ p = (100 + Z.of_nat k) mod 2 ^ 16.
Proof.
  intros Hk.
  assert (k < policy_size np)%nat as Hlt.
  { apply lookup_lt_Some in Hk. unfold priorities in Hk.
    by rewrite length_fmap, length_NetworkPolicyToACLRules in Hk. }
  split; [done|]. rewrite priorities_lookup in Hk by done. congruence.
Qed.

Lemma expected_priorities_lookup np (k : nat) :
  (k < policy_size np)%nat →
  priorities (expected_rules np) !! k = Some (100 + Z.of_nat k).
Proof.
  intros Hk. unfold priorities, expected_rules.
  rewrite list_lookup_fmap, list_lookup_imap.
  rewrite <- length_policy_expansion in Hk.
  destruct (lookup_lt_is_Some_2 _ _ Hk) as [[dir pa] Ht]. rewrite Ht.
  by destruct dir.
Qed.

Lemma NetworkPolicyToACLRules_no_wrap np :
  Z.of_nat (policy_size np) ≤ 65436 →
  NetworkPolicyToACLRules np = expected_rules np.
Proof.
  intros Hsize.
  rewrite NetworkPolicyToACLRules_number. unfold templates, expected_rules.
  rewrite number_fmap. apply imap_ext. intros k dpa Hk. cbn beta.
  apply lookup_lt_Some in Hk. rewrite length_policy_expansion in Hk.
  f_equal. apply Z.mod_small. lia.
Qed.

Lemma expansion_size_no_peers ports :
  ports ≠ [] → expansion_size ports [] = length ports.
Proof. by destruct ports. Qed.

Lemma policy_size_many_ports (n : Z) :
  0 < n → Z.of_nat (policy_size (many_ports n)) = n.
Proof.
  intros Hn. unfold policy_size, many_ports.
  cbn [Spec Ingress Egress fmap list_fmap sum_list ingress_Ports ingress_From].
  rewrite expansion_size_no_peers, length_replicate; [unfold id; lia|].
  intros Hnil. apply (f_equal length) in Hnil.
  rewrite length_replicate in Hnil. simpl in Hnil. lia.
Qed.

Lemma counts_up_strictly_increasing prios :
  counts_up_from_100 prios → strictly_increasing prios.
Proof.
  intros Hc i j p q Hij Hi Hj.
  rewrite (Hc i p Hi), (Hc j q Hj). lia.
Qed.

Lemma wraps_not_strictly_increasing prios :
  wraps prios → ¬ strictly_increasing prios.
Proof.
  intros (k & p & q & Hp & Hq & Hle) Hinc.
  specialize (Hinc k (S k) p q ltac:(lia) Hp Hq). lia.
Qed.

Lemma length_priorities np :
  length (priorities (NetworkPolicyToACLRules np)) = policy_size np.
Proof.
  unfold priorities. by rewrite length_fmap, length_NetworkPolicyToACLRules.
Qed.

(** ** Expansion and priorities (C1, C10) *)

(** C1 as stated does not hold for every policy: a policy with one ingress
    rule of 65437 ports and no peers expands to 65437 rules, and the last of
    them has priority 0 where the specification's output has 65536. *)
Lemma wide_policy_not_expected :
  NetworkPolicyToACLRules (many_ports 65437) ≠ expected_rules (many_ports 65437).
Proof.
  intros Heq.
  assert (Z.of_nat (policy_size (many_ports 65437)) = 65437) as Hsize
    by (apply policy_size_many_ports; lia).
  assert (Z.to_nat 65436 < policy_size (many_ports 65437))%nat as Hk by lia.
  pose proof (priorities_lookup _ _ Hk) as Hcode.
  pose proof (expected_priorities_lookup _ _ Hk) as Hspec.
  rewrite Heq, Hspec in Hcode.
  rewrite Z2Nat.id in Hcode by lia.
  vm_compute in Hcode. discriminate Hcode.
Qed.

(** C1 (amended): for every policy whose conversion has at most 65436 rules,
    the converter's output is the specification's: the ingress rules in
    order, then the egress rules in order, each expanded to one rule when it
    has neither ports nor peers, one per resolvable peer when it has only
    peers, one per port when it has only ports, and the port-outer,
    peer-inner cross-product otherwise, the [k]-th rule with priority
    [100 + k]; the number of rules is the sum of the expansion sizes; each
    directional rule contributes [expansion_size] rules; the priorities are
    100, 101, 102, ... and strictly increasing. *)
Theorem conversion_expands_and_counts_from_100 (np : NetworkPolicy) :
  Z.of_nat (length (NetworkPolicyToACLRules np)) ≤ 65436 →
  NetworkPolicyToACLRules np = expected_rules np
  ∧ length (NetworkPolicyToACLRules np) = policy_size np
  ∧ (∀ r s, length (convertIngressRule np r (s mod 2 ^ 16)).1
            = expansion_size (ingress_Ports r) (ingress_From r))
  ∧ (∀ r s, length (convertEgressRule np r (s mod 2 ^ 16)).1
            = expansion_size (egress_Ports r) (egress_To r))
  ∧ counts_up_from_100 (priorities (NetworkPolicyToACLRules np))
  ∧ strictly_increasing (priorities (NetworkPolicyToACLRules np)).
Proof.
  intros Hsize. rewrite length_NetworkPolicyToACLRules in Hsize.
  assert (counts_up_from_100 (priorities (NetworkPolicyToACLRules np)))
    as Hcount.
  { intros k p Hk. apply priorities_lookup_Some in Hk as [Hlt ->].
    apply Z.mod_small. lia. }
  split_and!.
  - by apply NetworkPolicyToACLRules_no_wrap.
  - apply length_NetworkPolicyToACLRules.
  - intros r s. rewrite convertIngressRule_spec. cbn [fst].
    by rewrite length_number, length_fmap, length_expansion.
  - intros r s. rewrite convertEgressRule_spec. cbn [fst].
    by rewrite length_number, length_fmap, length_expansion.
  - done.
  - by apply counts_up_strictly_increasing.
Qed.

Lemma conversion_expands_and_counts_from_100_witness :
  NetworkPolicyToACLRules allow_web = expected_rules allow_web
  ∧ length (NetworkPolicyToACLRules allow_web) = policy_size allow_web
  ∧ (∀ r s, length (convertIngressRule allow_web r (s mod 2 ^ 16)).1
            = expansion_size (ingress_Ports r) (ingress_From r))
  ∧ (∀ r s, length (convertEgressRule allow_web r (s mod 2 ^ 16)).1
            = expansion_size (egress_Ports r) (egress_To r))
  ∧ counts_up_from_100 (priorities (NetworkPolicyToACLRules allow_web))
  ∧ strictly_increasing (priorities (NetworkPolicyToACLRules allow_web)).
Proof.
  apply (conversion_expands_and_counts_from_100 allow_web).
  vm_compute. discriminate.
Defined.

(** C10 as stated does not hold: the policy with 65437 rules wraps the
    counter, yet no priority occurs twice among its rules. *)
Lemma wrap_without_repeat :
  ¬ (65436 < Z.of_nat (length (priorities
                                 (NetworkPolicyToACLRules (many_ports 65437)))) →
     has_repeat (priorities (NetworkPolicyToACLRules (many_ports 65437)))
     ∧ ¬ strictly_increasing
           (priorities (NetworkPolicyToACLRules (many_ports 65437)))).
Proof.
  assert (Z.of_nat (policy_size (many_ports 65437)) = 65437) as Hsize
    by (apply policy_size_many_ports; lia).
  intros Hclaim. destruct Hclaim as [(i & j & p & Hij & Hi & Hj) _].
  { rewrite length_priorities. lia. }
  apply priorities_lookup_Some in Hi as [Hilt Hi].
  apply priorities_lookup_Some in Hj as [Hjlt Hj].
  apply Hij. rewrite Hi in Hj. clear Hi.
  change (2 ^ 16) with 65536 in Hj.
  Z.to_euclidean_division_equations. lia.
Qed.

(** C10 (amended): the priority counter is a 16-bit unsigned integer starting
    at 100, so the [k]-th emitted rule (counting from 0) has priority
    [(100 + k) mod 2^16]; a policy that expands to at most 65436 rules has
    priorities 100, 101, ... strictly increasing with no wrap; a policy that
    expands to more rules wraps the counter and its priorities are not
    increasing; a policy that expands to more than 65536 rules also repeats a
    priority. *)
Theorem priority_counter_is_uint16 (np : NetworkPolicy) :
  let prios := priorities (NetworkPolicyToACLRules np) in
  (∀ (k : nat) (p : Z), prios !! k = Some p → p = (100 + Z.of_nat k) mod 2 ^ 16)
  ∧ (∀ (k : nat), (k < length prios)%nat →
       prios !! k = Some ((100 + Z.of_nat k) mod 2 ^ 16))
  ∧ (Z.of_nat (length prios) ≤ 65436 →
       counts_up_from_100 prios ∧ strictly_increasing prios)
  ∧ (65436 < Z.of_nat (length prios) →
       wraps prios ∧ ¬ strictly_increasing prios)
  ∧ (65536 < Z.of_nat (length prios) → has_repeat prios).
Proof.
  intros prios. subst prios. rewrite length_priorities. split_and!.
  - intros k p Hk. by apply priorities_lookup_Some in Hk as [_ ->].
  - intros k Hk. by apply priorities_lookup.
  - intros Hsize.
    assert (counts_up_from_100 (priorities (NetworkPolicyToACLRules np)))
      as Hcount.
    { intros k p Hk. apply priorities_lookup_Some in Hk as [Hlt ->].
      apply Z.mod_small. lia. }
    split; [done|by apply counts_up_strictly_increasing].
  - intros Hsize.
    assert (wraps (priorities (NetworkPolicyToACLRules np))) as Hwrap.
    { exists (Z.to_nat 65435), 65535, 0. split_and!.
      - rewrite priorities_lookup by lia. by rewrite Z2Nat.id by lia.
      - rewrite priorities_lookup by lia.
        by rewrite Nat2Z.inj_succ, Z2Nat.id by lia.
      - lia. }
    split; [done|by apply wraps_not_strictly_increasing].
  - intros Hsize. exists 0%nat, (Z.to_nat 65536), 100. split_and!.
    + lia.
    + by rewrite priorities_lookup by lia.
    + rewrite priorities_lookup by lia. by rewrite Z2Nat.id by lia.
Qed.

Lemma priority_counter_is_uint16_witness :
  (counts_up_from_100 (priorities (NetworkPolicyToACLRules allow_web))
   ∧ strictly_increasing (priorities (NetworkPolicyToACLRules allow_web)))
  ∧ (wraps (priorities (NetworkPolicyToACLRules (many_ports 65537)))
     ∧ ¬ strictly_increasing
           (priorities (NetworkPolicyToACLRules (many_ports 65537))))
  ∧ has_repeat (priorities (NetworkPolicyToACLRules (many_ports 65537))).
Proof.
  assert (Z.of_nat (length (priorities
            (NetworkPolicyToACLRules (many_ports 65537)))) = 65537) as Hsize.
  { rewrite length_priorities. apply policy_size_many_ports. lia. }
  destruct (priority_counter_is_uint16 allow_web)
    as (_ & _ & Hsmall & _ & _).
  destruct (priority_counter_is_uint16 (many_ports 65537))
    as (_ & _ & _ & Hwrap & Hrepeat).
  split; [|split].
  - apply Hsmall. vm_compute. discriminate.
  - apply Hwrap. lia.
  - apply Hrepeat. lia.
Defined.

(** ** Peers without an address (C6) *)

Lemma resolved_selector_only peers :
  Forall (fun peer => peer_IPBlock peer = None) peers → resolved peers = [].
Proof.
  intros Hall. unfold resolved.
  induction Hall as [|peer peers Hpeer _ IH]; [done|].
  rewrite filter_cons, decide_False; [done|].
  unfold resolvable, getPeerAddress. rewrite Hpeer. by intros [].
Qed.

Lemma resolved_skip before peer after :
  peer_IPBlock peer = None →
  resolved (before ++ peer :: after) = resolved (before ++ after).
Proof.
  intros Hpeer. unfold resolved.
  rewrite !filter_app, filter_cons, decide_False; [done|].
  unfold resolvable, getPeerAddress. rewrite Hpeer. by intros [].
Qed.

Lemma expansion_unresolvable ports peers :
  peers ≠ [] → resolved peers = [] → expansion ports peers = [].
Proof.
  intros Hne Hres. destruct ports as [|port ports], peers as [|peer peers];
    try done; cbn [expansion]; rewrite Hres; [done|].
  induction (Some <$> port :: ports) as [|p l IH]; [done|]. by cbn.
Qed.

(** C6: conversion is a total function of the policy (it has no error
    result, and its output is the numbered expansion of the policy, of
    [policy_size] rules); a peer without an address block has no address and
    is skipped wherever it stands in a peer list; a rule whose peers are all
    without an address block emits no rule and leaves the counter alone, in
    both directions. *)
Theorem conversion_total_and_skips_selector_peers (np : NetworkPolicy)
    (ports : list NetworkPolicyPort) (peers : list NetworkPolicyPeer) (s : Z) :
  peers ≠ [] →
  Forall (fun peer => peer_IPBlock peer = None) peers →
  (∃ rules, NetworkPolicyToACLRules np = rules
            ∧ rules = number 100 (templates np)
            ∧ length rules = policy_size np)
  ∧ (∀ peer, peer_IPBlock peer = None → getPeerAddress peer = "")
  ∧ (∀ before peer after, peer_IPBlock peer = None →
       resolved (before ++ peer :: after) = resolved (before ++ after))
  ∧ convertIngressRule np
      {| ingress_Ports := ports; ingress_From := peers |} (s mod 2 ^ 16)
    = ([], s mod 2 ^ 16)
  ∧ convertEgressRule np
      {| egress_Ports := ports; egress_To := peers |} (s mod 2 ^ 16)
    = ([], s mod 2 ^ 16).
Proof.
  intros Hne Hall. split_and!.
  - eexists. split; [done|]. split.
    + apply NetworkPolicyToACLRules_number.
    + apply length_NetworkPolicyToACLRules.
  - intros peer Hpeer. unfold getPeerAddress. by rewrite Hpeer.
  - apply resolved_skip.
  - rewrite convertIngressRule_spec, <- length_expansion.
    cbn [ingress_Ports ingress_From].
    rewrite expansion_unresolvable by auto using resolved_selector_only.
    cbn. by rewrite Z.add_0_r.
  - rewrite convertEgressRule_spec, <- length_expansion.
    cbn [egress_Ports egress_To].
    rewrite expansion_unresolvable by auto using resolved_selector_only.
    cbn. by rewrite Z.add_0_r.
Qed.

Lemma conversion_total_and_skips_selector_peers_witness :
  convertIngressRule allow_web
    {| ingress_Ports := [tcp_port 80];
       ingress_From := [pod_selector_peer "app" "web"] |} (100 mod 2 ^ 16)
  = ([], 100 mod 2 ^ 16).
Proof.
  apply (conversion_total_and_skips_selector_peers allow_web [tcp_port 80]
           [pod_selector_peer "app" "web"] 100).
  - discriminate.
  - repeat constructor.
Defined.

(** ** Protocol and port resolution (C7) *)

Lemma Sprintf_d_decimal (n : Z) : decimal_value (Sprintf_d n) = Some n.
Proof.
  unfold decimal_value, Sprintf_d. rewrite NilEmpty.isi. cbn.
  by rewrite DecimalZ.of_to.
Qed.

Lemma expansion_with_ports ports peers pa :
  ports ≠ [] → pa ∈ expansion ports peers →
  ∃ port, port ∈ ports ∧ pa.1 = Some port.
Proof.
  intros Hports Hpa.
  destruct ports as [|port0 ports]; [done|].
  destruct peers as [|peer peers]; cbn [expansion] in Hpa.
  - apply list_elem_of_fmap in Hpa as (port & -> & Hport). eauto.
  - destruct pa as [p addr]. apply list_elem_of_In, in_prod_iff in Hpa as [Hp _].
    apply list_elem_of_In, list_elem_of_fmap in Hp as (port & -> & Hport). eauto.
Qed.

Lemma elem_of_number (s : Z) ts rule :
  rule ∈ number s ts → ∃ t p, t ∈ ts ∧ rule = t p.
Proof.
  intros Hrule. apply list_elem_of_lookup in Hrule as [k Hk].
  rewrite number_lookup in Hk.
  destruct (ts !! k) as [t|] eqn:Ht; simplify_eq/=.
  eexists t, _. split; [|done]. by eapply list_elem_of_lookup_2.
Qed.

(** C7: TCP maps to "6", UDP to "17", SCTP to "132"; an unset protocol and
    any other protocol value map to "6"; an integral port resolves to its
    decimal numeral, a named port and an absent port to the empty string; and
    every rule emitted for a directional rule with ports carries the protocol
    number and the port string of one of these ports (in [LocalPorts] for
    ingress, in [RemotePorts] for egress). *)
Theorem protocol_and_port_resolution :
  protocolToNumber (Some ProtocolTCP) = "6"
  ∧ protocolToNumber (Some ProtocolUDP) = "17"
  ∧ protocolToNumber (Some ProtocolSCTP) = "132"
  ∧ protocolToNumber None = "6"
  ∧ (∀ p : Protocol, p ≠ ProtocolUDP → p ≠ ProtocolSCTP →
       protocolToNumber (Some p) = "6")
  ∧ (∀ n : Z, portToString (Some (FromInt n)) = Sprintf_d n
              ∧ decimal_value (portToString (Some (FromInt n))) = Some n)
  ∧ (∀ name : string, portToString (Some (FromString name)) = "")
  ∧ portToString None = ""
  ∧ (∀ np r s rule,
       ingress_Ports r ≠ [] →
       rule ∈ (convertIngressRule np r (s mod 2 ^ 16)).1 →
       ∃ port, port ∈ ingress_Ports r
               ∧ Protocol_ rule = protocolToNumber (port_Protocol port)
               ∧ LocalPorts rule = portToString (port_Port port))
  ∧ (∀ np r s rule,
       egress_Ports r ≠ [] →
       rule ∈ (convertEgressRule np r (s mod 2 ^ 16)).1 →
       ∃ port, port ∈ egress_Ports r
               ∧ Protocol_ rule = protocolToNumber (port_Protocol port)
               ∧ RemotePorts rule = portToString (port_Port port)).
Proof.
  split_and!; try done.
  - intros p Hudp Hsctp. unfold protocolToNumber.
    repeat case_decide; done.
  - intros n. split; [done|]. apply Sprintf_d_decimal.
  - intros np r s rule Hports Hrule.
    rewrite convertIngressRule_spec in Hrule. cbn [fst] in Hrule.
    apply elem_of_number in Hrule as (t & p & Ht & ->).
    apply list_elem_of_fmap in Ht as (pa & -> & Hpa).
    apply expansion_with_ports in Hpa as (port & Hport & Hfst); [|done].
    exists port. unfold emitted_rule. rewrite Hfst. done.
  - intros np r s rule Hports Hrule.
    rewrite convertEgressRule_spec in Hrule. cbn [fst] in Hrule.
    apply elem_of_number in Hrule as (t & p & Ht & ->).
    apply list_elem_of_fmap in Ht as (pa & -> & Hpa).
    apply expansion_with_ports in Hpa as (port & Hport & Hfst); [|done].
    exists port. unfold emitted_rule. rewrite Hfst. done.
Qed.

Lemma protocol_and_port_resolution_witness :
  protocolToNumber (Some "ICMP") = "6"
  ∧ ∃ port, port ∈ [tcp_port 80; tcp_port 443]
            ∧ Protocol_ (emitted_rule allow_web DirectionTypeIn
                           (Some (tcp_port 443), "10.0.0.0/8") 102)
              = protocolToNumber (port_Protocol port)
            ∧ LocalPorts (emitted_rule allow_web DirectionTypeIn
                            (Some (tcp_port 443), "10.0.0.0/8") 102)
              = portToString (port_Port port).
Proof.
  destruct protocol_and_port_resolution
    as (_ & _ & _ & _ & Hother & _ & _ & _ & Hingress & _).
  split.
  - apply Hother; discriminate.
  - apply (Hingress allow_web
             {| ingress_Ports := [tcp_port 80; tcp_port 443];
                ingress_From := [cidr_peer "10.0.0.0/8";
                                 cidr_peer "192.168.0.0/16"] |} 100).
    + discriminate.
    + vm_compute. do 2 right. left.
Defined.

(** * Properties of the manager *)

(** ** Runs from the unit tests of [acl_test.go] *)

Example apply_two_endpoints_tracked :
  let r := ApplyACLRules plain_Marshal "default/test-policy" [allow_http]
             (NewManager (mock_with_endpoints [ep1; ep2])) in
  r.1 = None
  ∧ (length <$> appliedPolicies r.2 !! "default/test-policy") = Some 2%nat.
Proof. vm_compute. done. Qed.

Example apply_list_error :
  (ApplyACLRules plain_Marshal "default/test-policy" [allow_http]
     (NewManager mock_failing_list)).1
  = Some (ErrListEndpoints (errors_New "failed to list endpoints")).
Proof. vm_compute. done. Qed.

Example apply_all_fail :
  (ApplyACLRules plain_Marshal "default/test-policy" [allow_http]
     (NewManager (mock_failing_apply [ep1; ep2]))).1
  = Some (ErrApplyFailed 2 2
            [ErrEndpoint "ep-1" (errors_New "failed to apply policy");
             ErrEndpoint "ep-2" (errors_New "failed to apply policy")]).
Proof. vm_compute. done. Qed.

(** ** Counting over the record *)

Lemma failed_app l k : failed (l ++ k) = (failed l + failed k)%nat.
Proof. unfold failed. by rewrite filter_app, length_app. Qed.

Lemma targets_app l k : targets (l ++ k) = targets l ++ targets k.
Proof. unfold targets. by rewrite omap_app. Qed.

Lemma since_app {W} (m m' : Manager W) new :
  effects m' = effects m ++ new → since m m' = new.
Proof. intros Heq. unfold since. by rewrite Heq, drop_app_length. Qed.

Lemma since_refl {W} (m m' : Manager W) :
  effects m' = effects m → since m m' = [].
Proof. intros Heq. unfold since. by rewrite Heq, drop_all. Qed.

Lemma failed_cons e l :
  failed (e :: l) = if op_failed e then S (failed l) else failed l.
Proof.
  unfold failed. rewrite filter_cons.
  destruct (op_failed e); by cbn.
Qed.

Section counting.
Variable policies : list EndpointPolicy.

Lemma apply_calls_cons ep eps o outcomes :
  apply_calls policies (ep :: eps) (o :: outcomes)
  = CallApplyEndpointPolicy ep RequestTypeAdd {| Policies := policies |} o
      :: apply_calls policies eps outcomes.
Proof. done. Qed.

Lemma applied_ruleSets_cons ep eps o outcomes :
  applied_ruleSets policies (ep :: eps) (o :: outcomes)
  = match o with
    | None => [{| EndpointID := Id ep; rs_Policies := policies |}]
    | Some _ => []
    end ++ applied_ruleSets policies eps outcomes.
Proof. by destruct o. Qed.

Lemma apply_errors_cons ep eps o outcomes :
  apply_errors (ep :: eps) (o :: outcomes)
  = match o with
    | None => []
    | Some err => [ErrEndpoint (Id ep) err]
    end ++ apply_errors eps outcomes.
Proof. by destruct o. Qed.

Lemma apply_counts eps outcomes :
  length outcomes = length eps →
  failed (apply_calls policies eps outcomes)
    = length (apply_errors eps outcomes)
  ∧ targets (apply_calls policies eps outcomes) = Id <$> eps
  ∧ (length (applied_ruleSets policies eps outcomes)
     + length (apply_errors eps outcomes))%nat = length eps
  ∧ Forall (fun e => is_map_write e = false)
           (apply_calls policies eps outcomes).
Proof.
  revert outcomes. induction eps as [|ep eps IH];
    intros [|o outcomes] Hlen; try done.
  injection Hlen as Hlen.
  destruct (IH outcomes) as (Hf & Ht & Hl & Hw); [done|].
  rewrite apply_calls_cons, applied_ruleSets_cons, apply_errors_cons.
  rewrite failed_cons, !length_app.
  change (targets (?e :: ?l)) with (omap op_target (e :: l)).
  cbn [omap list_omap op_target]. fold (targets (apply_calls policies eps outcomes)).
  rewrite Ht, Hf. split_and!.
  - by destruct o.
  - done.
  - destruct o; cbn; lia.
  - by constructor.
Qed.
End counting.

Lemma remove_effects_cons rs ruleSets o outcomes :
  remove_effects (rs :: ruleSets) (o :: outcomes)
  = remove_calls rs o ++ remove_effects ruleSets outcomes.
Proof. done. Qed.

Lemma remove_errors_cons rs ruleSets o outcomes :
  remove_errors (rs :: ruleSets) (o :: outcomes)
  = option_list (remove_error rs o) ++ remove_errors ruleSets outcomes.
Proof. unfold remove_errors. cbn. by destruct (remove_error rs o). Qed.

Lemma remove_counts ruleSets outcomes :
  length outcomes = length ruleSets →
  failed (remove_effects ruleSets outcomes)
    = length (remove_errors ruleSets outcomes)
  ∧ targets (remove_effects ruleSets outcomes) = EndpointID <$> ruleSets
  ∧ Forall (fun e => is_map_write e = false)
           (remove_effects ruleSets outcomes).
Proof.
  revert outcomes. induction ruleSets as [|rs ruleSets IH];
    intros [|o outcomes] Hlen; try done.
  injection Hlen as Hlen.
  destruct (IH outcomes) as (Hf & Ht & Hw); [done|].
  rewrite remove_effects_cons, remove_errors_cons.
  rewrite failed_app, targets_app, length_app, Hf, Ht. split_and!.
  - by destruct o.
  - by destruct o.
  - apply Forall_app. split; [|done]. destruct o; by repeat constructor.
Qed.

Section manager_proofs.
Context {W : Type} `{!HCNClient W}.
Variable json_Marshal : AclPolicySetting → result string.

(** ** [buildPolicies] *)

Lemma buildPolicies_from_Ok i rules policies :
  (∀ rule, rule ∈ rules → ∃ js, json_Marshal (aclSetting rule) = Ok js) →
  ∃ built, buildPolicies_from json_Marshal i rules policies = Ok built
           ∧ length built = (length policies + length rules)%nat.
Proof.
  revert i policies. induction rules as [|rule rules IH];
    intros i policies Hall; cbn.
  - eexists. split; [done|lia].
  - destruct (Hall rule) as [js ->]; [by left|].
    destruct (IH (S i) (policies ++ [{| policy_Type := ACL; Settings := js |}]))
      as (built & -> & Hlen); [intros; apply Hall; by right|].
    eexists. split; [done|]. rewrite Hlen, length_app. cbn. lia.
Qed.

Lemma buildPolicies_from_Err i rules policies (k : nat) rule err :
  rules !! k = Some rule →
  json_Marshal (aclSetting rule) = Err err →
  ∃ j err', buildPolicies_from json_Marshal i rules policies
            = Err (ErrMarshal j err').
Proof.
  revert i policies k. induction rules as [|r rules IH];
    intros i policies k Hk Herr; [done|]. cbn.
  destruct (json_Marshal (aclSetting r)) as [js|e] eqn:Hr; [|eauto].
  destruct k as [|k]; cbn in Hk.
  - injection Hk as ->. congruence.
  - eapply IH; eauto.
Qed.

Lemma buildPolicies_from_Err_inv i rules policies e :
  buildPolicies_from json_Marshal i rules policies = Err e →
  ∃ (k : nat) rule err,
    rules !! k = Some rule ∧ json_Marshal (aclSetting rule) = Err err.
Proof.
  revert i policies. induction rules as [|r rules IH];
    intros i policies Hb; [done|]. cbn in Hb.
  destruct (json_Marshal (aclSetting r)) as [js|err] eqn:Hr.
  - apply IH in Hb as (k & rule & err & Hk & Herr).
    by exists (S k), rule, err.
  - by exists 0%nat, r, err.
Qed.

(** Encoding fails exactly when some rule cannot be encoded, and then with
    an error that names a rule. *)
Lemma buildPolicies_Err_iff rules :
  (∃ err, buildPolicies json_Marshal rules = Err err)
  ↔ (∃ (k : nat) rule err,
       rules !! k = Some rule ∧ json_Marshal (aclSetting rule) = Err err).
Proof.
  split.
  - intros [err Herr]. by eapply buildPolicies_from_Err_inv.
  - intros (k & rule & err & Hk & Herr).
    destruct (buildPolicies_from_Err 0 rules [] k rule err Hk Herr)
      as (j & err' & Hb). eauto.
Qed.

(** ** The two fan-out loops *)

(** The installation loop visits every endpoint, in order, whatever the
    host answers; it does not touch the tracking map. *)
Lemma apply_loop policies eps rs errs (m : Manager W) :
  ∃ outcomes c',
    length outcomes = length eps
    ∧ for_range eps
        (fun endpoint '(ruleSets, applyErrors) =>
           let request := {| Policies := policies |} in
           let* err := call_ApplyEndpointPolicy endpoint
                         RequestTypeAdd request in
           match err with
           | Some err =>
               ret (ruleSets,
                    applyErrors ++ [ErrEndpoint (Id endpoint) err])
           | None =>
               ret (ruleSets ++ [{| EndpointID := Id endpoint;
                                    rs_Policies := policies |}],
                    applyErrors)
           end)
        (rs, errs) m
      = ((rs ++ applied_ruleSets policies eps outcomes,
          errs ++ apply_errors eps outcomes),
         {| client := c';
            appliedPolicies := appliedPolicies m;
            effects := effects m ++ apply_calls policies eps outcomes |}).
Proof.
  revert rs errs m. induction eps as [|ep eps IH]; intros rs errs m.
  - exists [], (client m). split; [done|]. cbn.
    rewrite !app_nil_r. by destruct m.
  - cbn [for_range]. unfold bind at 1. unfold bind at 1.
    unfold call_ApplyEndpointPolicy.
    destruct (ApplyEndpointPolicy ep RequestTypeAdd
                {| Policies := policies |} (client m)) as [o c1].
    destruct o as [err|]; unfold ret at 1.
    + edestruct IH as (outcomes & c' & Hlen & ->).
      exists (Some err :: outcomes), c'. split; [cbn; by rewrite Hlen|].
      rewrite applied_ruleSets_cons, apply_errors_cons, apply_calls_cons.
      cbn. by rewrite <- !app_assoc.
    + edestruct IH as (outcomes & c' & Hlen & ->).
      exists (None :: outcomes), c'. split; [cbn; by rewrite Hlen|].
      rewrite applied_ruleSets_cons, apply_errors_cons, apply_calls_cons.
      cbn. by rewrite <- !app_assoc.
Qed.

(** The removal loop visits every tracked rule set, in order; it does not
    touch the tracking map. *)
Lemma remove_loop ruleSets errs (m : Manager W) :
  ∃ outcomes c',
    length outcomes = length ruleSets
    ∧ for_range ruleSets
        (fun ruleSet removeErrors =>
           let* got := call_GetEndpointByID (EndpointID ruleSet) in
           match got with
           | Err err =>
               ret (removeErrors
                      ++ [ErrGetEndpoint (EndpointID ruleSet) err])
           | Ok endpoint =>
               let request := {| Policies := rs_Policies ruleSet |} in
               let* err := call_RemoveEndpointPolicy endpoint
                             RequestTypeRemove request in
               match err with
               | Some err =>
                   ret (removeErrors
                          ++ [ErrEndpoint (EndpointID ruleSet) err])
               | None => ret removeErrors
               end
           end)
        errs m
      = (errs ++ remove_errors ruleSets outcomes,
         {| client := c';
            appliedPolicies := appliedPolicies m;
            effects := effects m ++ remove_effects ruleSets outcomes |}).
Proof.
  revert errs m. induction ruleSets as [|rs ruleSets IH]; intros errs m.
  - exists [], (client m). split; [done|]. cbn.
    rewrite !app_nil_r. by destruct m.
  - cbn [for_range]. unfold bind at 1. unfold bind at 1.
    unfold call_GetEndpointByID.
    destruct (GetEndpointByID (EndpointID rs) (client m)) as [got c1].
    destruct got as [endpoint|err].
    + unfold bind at 1. unfold call_RemoveEndpointPolicy. cbn [client with_client record].
      destruct (RemoveEndpointPolicy endpoint RequestTypeRemove
                  {| Policies := rs_Policies rs |} c1) as [o c2].
      destruct o as [err|]; unfold ret at 1.
      * edestruct IH as (outcomes & c' & Hlen & ->).
        exists (RemoveFailed endpoint err :: outcomes), c'.
        split; [cbn; by rewrite Hlen|].
        rewrite remove_errors_cons, remove_effects_cons.
        cbn. by rewrite <- !app_assoc.
      * edestruct IH as (outcomes & c' & Hlen & ->).
        exists (Removed endpoint :: outcomes), c'.
        split; [cbn; by rewrite Hlen|].
        rewrite remove_errors_cons, remove_effects_cons.
        cbn. by rewrite <- !app_assoc.
    + unfold ret at 1.
      edestruct IH as (outcomes & c' & Hlen & ->).
      exists (GetFailed err :: outcomes), c'.
      split; [cbn; by rewrite Hlen|].
      rewrite remove_errors_cons, remove_effects_cons.
      cbn. by rewrite <- !app_assoc.
Qed.

(** ** The paths through [ApplyACLRules] and [RemoveACLRules] *)

Lemma ApplyACLRules_list_error (m : Manager W) key rules err c :
  ListEndpoints (client m) = (Err err, c) →
  ApplyACLRules json_Marshal key rules m
  = (Some (ErrListEndpoints err),
     {| client := c;
        appliedPolicies := appliedPolicies m;
        effects := effects m ++ [CallListEndpoints (Err err)] |}).
Proof.
  intros Hlist. unfold ApplyACLRules, bind, call_ListEndpoints.
  by rewrite Hlist.
Qed.

Lemma ApplyACLRules_no_endpoints (m : Manager W) key rules c :
  ListEndpoints (client m) = (Ok [], c) →
  ApplyACLRules json_Marshal key rules m
  = (None,
     {| client := c;
        appliedPolicies := appliedPolicies m;
        effects := effects m ++ [CallListEndpoints (Ok [])] |}).
Proof.
  intros Hlist. unfold ApplyACLRules, bind, call_ListEndpoints.
  by rewrite Hlist.
Qed.

Lemma ApplyACLRules_build_error (m : Manager W) key rules eps c err :
  ListEndpoints (client m) = (Ok eps, c) →
  eps ≠ [] →
  buildPolicies json_Marshal rules = Err err →
  ApplyACLRules json_Marshal key rules m
  = (Some (ErrBuildPolicies err),
     {| client := c;
        appliedPolicies := appliedPolicies m;
        effects := effects m ++ [CallListEndpoints (Ok eps)] |}).
Proof.
  intros Hlist Hne Hbuild. unfold ApplyACLRules, bind, call_ListEndpoints.
  rewrite Hlist, decide_False by by destruct eps.
  by rewrite Hbuild.
Qed.

Lemma ApplyACLRules_fanout (m : Manager W) key rules eps c policies :
  ListEndpoints (client m) = (Ok eps, c) →
  eps ≠ [] →
  buildPolicies json_Marshal rules = Ok policies →
  ∃ outcomes c',
    length outcomes = length eps
    ∧ ApplyACLRules json_Marshal key rules m
      = (if decide (0 < length (apply_errors eps outcomes))%nat
         then Some (ErrApplyFailed (length (apply_errors eps outcomes))
                      (length eps) (apply_errors eps outcomes))
         else None,
         {| client := c';
            appliedPolicies :=
              <[key := applied_ruleSets policies eps outcomes]>
                (appliedPolicies m);
            effects :=
              effects m ++ [CallListEndpoints (Ok eps)]
              ++ apply_calls policies eps outcomes
              ++ [MapStore key (applied_ruleSets policies eps outcomes)] |}).
Proof.
  intros Hlist Hne Hbuild. unfold ApplyACLRules.
  unfold bind at 1. unfold call_ListEndpoints.
  rewrite Hlist, decide_False by by destruct eps.
  rewrite Hbuild. unfold bind at 1.
  edestruct (apply_loop policies eps [] []) as (outcomes & c' & Hlen & ->).
  exists outcomes, c'. split; [done|].
  unfold bind, map_store, record. cbn.
  case_decide; unfold ret; by rewrite <- !app_assoc.
Qed.

Lemma RemoveACLRules_untracked (m : Manager W) key :
  appliedPolicies m !! key = None →
  RemoveACLRules key m = (None, m).
Proof.
  intros Hkey. unfold RemoveACLRules, bind, map_lookup. by rewrite Hkey.
Qed.

Lemma RemoveACLRules_tracked (m : Manager W) key ruleSets :
  appliedPolicies m !! key = Some ruleSets →
  ∃ outcomes c',
    length outcomes = length ruleSets
    ∧ RemoveACLRules key m
      = (if decide (0 < length (remove_errors ruleSets outcomes))%nat
         then Some (ErrRemoveFailed
                      (length (remove_errors ruleSets outcomes))
                      (length ruleSets) (remove_errors ruleSets outcomes))
         else None,
         {| client := c';
            appliedPolicies := delete key (appliedPolicies m);
            effects := effects m ++ [MapDelete key]
                       ++ remove_effects ruleSets outcomes |}).
Proof.
  intros Hkey. unfold RemoveACLRules.
  unfold bind at 1. unfold map_lookup. rewrite Hkey.
  unfold bind at 1. unfold map_delete. unfold bind at 1.
  edestruct (remove_loop ruleSets []) as (outcomes & c' & Hlen & ->).
  exists outcomes, c'. split; [done|]. cbn.
  case_decide; unfold ret; by rewrite <- !app_assoc.
Qed.

(** The tracking state after [RemoveACLRules], on every path. *)
Lemma RemoveACLRules_appliedPolicies (m : Manager W) key :
  appliedPolicies (RemoveACLRules key m).2 = delete key (appliedPolicies m).
Proof.
  destruct (appliedPolicies m !! key) as [ruleSets|] eqn:Hkey.
  - destruct (RemoveACLRules_tracked m key ruleSets Hkey)
      as (outcomes & c' & _ & ->). done.
  - rewrite RemoveACLRules_untracked by done. cbn.
    by rewrite delete_id.
Qed.

(** ** Summaries of a call *)

Lemma failed_apply_effects key policies eps outcomes ruleSets :
  length outcomes = length eps →
  failed ([CallListEndpoints (Ok eps)]
          ++ apply_calls policies eps outcomes ++ [MapStore key ruleSets])
    = length (apply_errors eps outcomes)
  ∧ targets ([CallListEndpoints (Ok eps)]
             ++ apply_calls policies eps outcomes ++ [MapStore key ruleSets])
    = Id <$> eps.
Proof.
  intros Hlen.
  destruct (apply_counts policies eps outcomes Hlen) as (Hf & Ht & _ & _).
  rewrite !failed_app, !targets_app, Hf, Ht.
  rewrite !(failed_cons _ []). cbn.
  split; [lia|by rewrite app_nil_r].
Qed.

(** The fan-out path of [ApplyACLRules], with its counts. *)
Lemma ApplyACLRules_fanout_summary (m : Manager W) key rules eps c policies :
  ListEndpoints (client m) = (Ok eps, c) →
  eps ≠ [] →
  buildPolicies json_Marshal rules = Ok policies →
  ∃ outcomes,
    length outcomes = length eps
    ∧ since m (ApplyACLRules json_Marshal key rules m).2
      = [CallListEndpoints (Ok eps)] ++ apply_calls policies eps outcomes
        ++ [MapStore key (applied_ruleSets policies eps outcomes)]
    ∧ failed (since m (ApplyACLRules json_Marshal key rules m).2)
      = length (apply_errors eps outcomes)
    ∧ targets (since m (ApplyACLRules json_Marshal key rules m).2)
      = Id <$> eps
    ∧ (length (applied_ruleSets policies eps outcomes)
       + length (apply_errors eps outcomes))%nat = length eps
    ∧ appliedPolicies (ApplyACLRules json_Marshal key rules m).2
      = <[key := applied_ruleSets policies eps outcomes]> (appliedPolicies m)
    ∧ (ApplyACLRules json_Marshal key rules m).1
      = if decide (0 < length (apply_errors eps outcomes))%nat
        then Some (ErrApplyFailed (length (apply_errors eps outcomes))
                     (length eps) (apply_errors eps outcomes))
        else None.
Proof.
  intros Hlist Hne Hbuild.
  destruct (ApplyACLRules_fanout m key rules eps c policies Hlist Hne Hbuild)
    as (outcomes & c' & Hlen & ->).
  exists outcomes. cbn [fst snd appliedPolicies].
  erewrite since_app by (cbn [effects]; reflexivity).
  destruct (failed_apply_effects key policies eps outcomes
              (applied_ruleSets policies eps outcomes) Hlen) as [-> ->].
  destruct (apply_counts policies eps outcomes Hlen) as (_ & _ & Hl & _).
  done.
Qed.

Lemma ApplyACLRules_aggregate_iff (m : Manager W) key rules :
  is_aggregate (ApplyACLRules json_Marshal key rules m).1
  ↔ (1 ≤ failed (since m (ApplyACLRules json_Marshal key rules m).2))%nat.
Proof.
  destruct (ListEndpoints (client m)) as [[eps|err] c] eqn:Hlist.
  - destruct eps as [|ep eps].
    + rewrite (ApplyACLRules_no_endpoints m key rules c Hlist).
      cbn [fst snd]. erewrite since_app by (cbn [effects]; reflexivity).
      rewrite (failed_cons _ []). cbn. split; [done|lia].
    + destruct (buildPolicies json_Marshal rules) as [policies|e] eqn:Hb.
      * destruct (ApplyACLRules_fanout_summary m key rules (ep :: eps) c
                    policies Hlist ltac:(done) Hb)
          as (outcomes & _ & _ & -> & _ & _ & _ & ->).
        case_decide; cbn [is_aggregate]; split; intros; try done; lia.
      * rewrite (ApplyACLRules_build_error m key rules (ep :: eps) c e
                   Hlist ltac:(done) Hb).
        cbn [fst snd]. erewrite since_app by (cbn [effects]; reflexivity).
        rewrite (failed_cons _ []). cbn. split; [done|lia].
  - rewrite (ApplyACLRules_list_error m key rules err c Hlist).
    cbn [fst snd]. erewrite since_app by (cbn [effects]; reflexivity).
    rewrite (failed_cons _ []). cbn. split; [done|lia].
Qed.

(** The removal path of [RemoveACLRules], with its counts. *)
Lemma RemoveACLRules_tracked_summary (m : Manager W) key ruleSets :
  appliedPolicies m !! key = Some ruleSets →
  ∃ outcomes,
    length outcomes = length ruleSets
    ∧ since m (RemoveACLRules key m).2
      = MapDelete key :: remove_effects ruleSets outcomes
    ∧ failed (since m (RemoveACLRules key m).2)
      = length (remove_errors ruleSets outcomes)
    ∧ targets (since m (RemoveACLRules key m).2) = EndpointID <$> ruleSets
    ∧ Forall (fun e => is_map_write e = false)
             (remove_effects ruleSets outcomes)
    ∧ (RemoveACLRules key m).1
      = if decide (0 < length (remove_errors ruleSets outcomes))%nat
        then Some (ErrRemoveFailed
                     (length (remove_errors ruleSets outcomes))
                     (length ruleSets) (remove_errors ruleSets outcomes))
        else None.
Proof.
  intros Hkey.
  destruct (RemoveACLRules_tracked m key ruleSets Hkey)
    as (outcomes & c' & Hlen & ->).
  exists outcomes. cbn [fst snd].
  erewrite since_app by (cbn [effects]; reflexivity).
  destruct (remove_counts ruleSets outcomes Hlen) as (Hf & Ht & Hw).
  change ([MapDelete key] ++ remove_effects ruleSets outcomes)
    with (MapDelete key :: remove_effects ruleSets outcomes).
  rewrite failed_cons. cbn [op_failed]. rewrite Hf.
  unfold targets in *. cbn [omap list_omap op_target]. rewrite Ht.
  done.
Qed.

Lemma RemoveACLRules_aggregate_iff (m : Manager W) key :
  is_aggregate (RemoveACLRules key m).1
  ↔ (1 ≤ failed (since m (RemoveACLRules key m).2))%nat.
Proof.
  destruct (appliedPolicies m !! key) as [ruleSets|] eqn:Hkey.
  - destruct (RemoveACLRules_tracked_summary m key ruleSets Hkey)
      as (outcomes & _ & _ & -> & _ & _ & ->).
    case_decide; cbn [is_aggregate]; split; intros; try done; lia.
  - rewrite RemoveACLRules_untracked by done. cbn [fst snd].
    rewrite since_refl by done. cbn. split; [done|lia].
Qed.

Lemma GetAppliedPolicies_insert (m : Manager W) key ruleSets
    (tracked : gmap string (list RuleSet)) :
  appliedPolicies m = <[key := ruleSets]> tracked →
  GetAppliedPolicies key m = (ruleSets, true).
Proof.
  intros Hm. unfold GetAppliedPolicies.
  by rewrite Hm, lookup_insert_eq.
Qed.

Lemma ListTrackedPolicies_elem (m : Manager W) key :
  key ∈ ListTrackedPolicies m ↔ is_Some (appliedPolicies m !! key).
Proof.
  unfold ListTrackedPolicies. rewrite list_elem_of_fmap. split.
  - intros ([k v] & -> & Hin). apply elem_of_map_to_list in Hin. eauto.
  - intros [v Hv]. exists (key, v). split; [done|].
    by apply elem_of_map_to_list.
Qed.

(** ** Apply: fan-out, aggregate error, overwrite (C2) *)

(** C2: when [ApplyACLRules] enumerates [N ≥ 1] endpoints and the rules
    encode, the call installs on every endpoint in order whatever the
    earlier ones answered, then stores under the policy key exactly the
    rule sets of the endpoints that accepted, replacing whatever was stored
    there; with [M] failed installations the stored list has [N - M]
    entries, and the call returns an aggregate error (counting [M] of [N])
    if and only if [M ≥ 1]. *)
Theorem apply_fans_out_and_overwrites (m : Manager W) key rules eps c
    policies :
  ListEndpoints (client m) = (Ok eps, c) →
  (1 ≤ length eps)%nat →
  buildPolicies json_Marshal rules = Ok policies →
  let r := ApplyACLRules json_Marshal key rules m in
  let M := failed (since m r.2) in
  let N := length eps in
  ∃ outcomes,
    length outcomes = N
    ∧ since m r.2
      = [CallListEndpoints (Ok eps)] ++ apply_calls policies eps outcomes
        ++ [MapStore key (applied_ruleSets policies eps outcomes)]
    ∧ targets (since m r.2) = Id <$> eps
    ∧ (is_aggregate r.1 ↔ (1 ≤ M)%nat)
    ∧ (r.1 = None ↔ M = 0%nat)
    ∧ ((1 ≤ M)%nat →
         r.1 = Some (ErrApplyFailed M N (apply_errors eps outcomes)))
    ∧ appliedPolicies r.2
      = <[key := applied_ruleSets policies eps outcomes]> (appliedPolicies m)
    ∧ GetAppliedPolicies key r.2
      = (applied_ruleSets policies eps outcomes, true)
    ∧ length (applied_ruleSets policies eps outcomes) = (N - M)%nat.
Proof.
  intros Hlist Hne Hbuild r M N. subst r M N.
  assert (eps ≠ []) as Hne' by (destruct eps; [cbn in Hne; lia|done]).
  destruct (ApplyACLRules_fanout_summary m key rules eps c policies
              Hlist Hne' Hbuild)
    as (outcomes & Hlen & Hsince & Hfailed & Htargets & Hsum & Hmap & Herr).
  exists outcomes. rewrite Hfailed, Herr.
  split_and!; try done.
  - case_decide; cbn [is_aggregate]; split; intros; try done; lia.
  - case_decide; split; intros; try done; lia.
  - intros HM. by rewrite decide_True by lia.
  - by eapply GetAppliedPolicies_insert.
  - lia.
Qed.

(** ** Apply with every installation failing (C9) *)

(** C9: when [ApplyACLRules] enumerates at least one endpoint, the rules
    encode, and installation fails on every endpoint, the entry of the
    policy key is overwritten with the empty list: afterwards
    [GetAppliedPolicies] reports the key as found with no rule set,
    whatever was stored before is gone, and the key is listed by
    [ListTrackedPolicies]; the call returns the aggregate error. *)
Theorem apply_all_failed_tracks_empty (m : Manager W) key rules eps c
    policies :
  ListEndpoints (client m) = (Ok eps, c) →
  (1 ≤ length eps)%nat →
  buildPolicies json_Marshal rules = Ok policies →
  let r := ApplyACLRules json_Marshal key rules m in
  failed (since m r.2) = length eps →
  appliedPolicies r.2 = <[key := []]> (appliedPolicies m)
  ∧ GetAppliedPolicies key r.2 = ([], true)
  ∧ key ∈ ListTrackedPolicies r.2
  ∧ is_aggregate r.1
  ∧ ∃ errs, r.1 = Some (ErrApplyFailed (length eps) (length eps) errs).
Proof.
  intros Hlist Hne Hbuild r Hall. subst r.
  assert (eps ≠ []) as Hne' by (destruct eps; [cbn in Hne; lia|done]).
  destruct (ApplyACLRules_fanout_summary m key rules eps c policies
              Hlist Hne' Hbuild)
    as (outcomes & Hlen & Hsince & Hfailed & Htargets & Hsum & Hmap & Herr).
  rewrite Hfailed in Hall.
  assert (applied_ruleSets policies eps outcomes = []) as Hnil
    by (apply nil_length_inv; lia).
  rewrite Hnil in Hmap. rewrite Herr, Hall, decide_True by lia.
  split_and!; [done| |  |done|eauto].
  - by eapply GetAppliedPolicies_insert.
  - apply ListTrackedPolicies_elem. rewrite Hmap, lookup_insert_eq. eauto.
Qed.

(** ** Aggregate errors of apply and remove (C4) *)

(** C4 (amended): [ApplyACLRules] and [RemoveACLRules] return an aggregate
    error exactly when one or more of the per-endpoint operations of the
    call failed, all of them included; when they do, the call has worked
    through every enumerated endpoint (every tracked rule set) in order,
    the error counts the failures out of that total, and the tracking map
    has been updated: the entry replaced by the rule sets of the endpoints
    that accepted (apply), the entry deleted (remove). *)
Theorem aggregate_error_iff_some_failure (m : Manager W) key rules :
  let a := ApplyACLRules json_Marshal key rules m in
  let d := RemoveACLRules key m in
  (is_aggregate a.1 ↔ (1 ≤ failed (since m a.2))%nat)
  ∧ (is_aggregate d.1 ↔ (1 ≤ failed (since m d.2))%nat)
  ∧ (is_aggregate a.1 →
       ∃ eps c ruleSets errs,
         ListEndpoints (client m) = (Ok eps, c)
         ∧ targets (since m a.2) = Id <$> eps
         ∧ a.1 = Some (ErrApplyFailed (failed (since m a.2))
                         (length eps) errs)
         ∧ appliedPolicies a.2 = <[key := ruleSets]> (appliedPolicies m)
         ∧ length ruleSets = (length eps - failed (since m a.2))%nat)
  ∧ (is_aggregate d.1 →
       ∃ ruleSets errs,
         appliedPolicies m !! key = Some ruleSets
         ∧ targets (since m d.2) = EndpointID <$> ruleSets
         ∧ d.1 = Some (ErrRemoveFailed (failed (since m d.2))
                         (length ruleSets) errs)
         ∧ appliedPolicies d.2 = delete key (appliedPolicies m)).
Proof.
  intros a d. subst a d. split_and!.
  - apply ApplyACLRules_aggregate_iff.
  - apply RemoveACLRules_aggregate_iff.
  - intros Hagg.
    destruct (ListEndpoints (client m)) as [[eps|err] c] eqn:Hlist.
    2:{ by rewrite (ApplyACLRules_list_error m key rules err c Hlist)
          in Hagg. }
    destruct eps as [|ep eps].
    { by rewrite (ApplyACLRules_no_endpoints m key rules c Hlist) in Hagg. }
    destruct (buildPolicies json_Marshal rules) as [policies|e] eqn:Hb.
    2:{ by rewrite (ApplyACLRules_build_error m key rules (ep :: eps) c e
                      Hlist ltac:(done) Hb) in Hagg. }
    destruct (ApplyACLRules_fanout_summary m key rules (ep :: eps) c
                policies Hlist ltac:(done) Hb)
      as (outcomes & Hlen & Hsince & Hfailed & Htargets & Hsum & Hmap & Herr).
    rewrite Herr in Hagg. rewrite Herr, Hfailed.
    case_decide; [|done].
    exists (ep :: eps), c, (applied_ruleSets policies (ep :: eps) outcomes),
      (apply_errors (ep :: eps) outcomes).
    split_and!; try done. lia.
  - intros Hagg.
    destruct (appliedPolicies m !! key) as [ruleSets|] eqn:Hkey.
    2:{ by rewrite RemoveACLRules_untracked in Hagg. }
    destruct (RemoveACLRules_tracked_summary m key ruleSets Hkey)
      as (outcomes & Hlen & Hsince & Hfailed & Htargets & Hw & Herr).
    rewrite Herr in Hagg. rewrite Herr, Hfailed.
    case_decide; [|done].
    exists ruleSets, (remove_errors ruleSets outcomes).
    split_and!; try done. apply RemoveACLRules_appliedPolicies.
Qed.

(** ** Fatal errors of apply (C5) *)

(** C5: when endpoint enumeration fails, [ApplyACLRules] returns that
    error at once: the enumeration is the only thing it did, and the
    tracking map is as before.  When enumeration has given at least one
    endpoint and some rule cannot be encoded, the call returns the encoding
    error: again the enumeration is the only thing it did, so nothing was
    installed anywhere, and the tracking map is as before.  Whatever the
    enumeration gives, a rule that cannot be encoded keeps the call from
    changing the host or the tracking map. *)
Theorem apply_fatal_errors_change_nothing (m : Manager W) key rules :
  let r := ApplyACLRules json_Marshal key rules m in
  (∀ err c,
     ListEndpoints (client m) = (Err err, c) →
     r.1 = Some (ErrListEndpoints err)
     ∧ since m r.2 = [CallListEndpoints (Err err)]
     ∧ appliedPolicies r.2 = appliedPolicies m)
  ∧ (∀ eps c (k : nat) rule err,
       ListEndpoints (client m) = (Ok eps, c) →
       eps ≠ [] →
       rules !! k = Some rule →
       json_Marshal (aclSetting rule) = Err err →
       (∃ e, buildPolicies json_Marshal rules = Err e
             ∧ r.1 = Some (ErrBuildPolicies e))
       ∧ since m r.2 = [CallListEndpoints (Ok eps)]
       ∧ appliedPolicies r.2 = appliedPolicies m)
  ∧ (∀ (k : nat) rule err,
       rules !! k = Some rule →
       json_Marshal (aclSetting rule) = Err err →
       Forall (fun e => is_host_mutation e = false ∧ is_map_write e = false)
              (since m r.2)
       ∧ appliedPolicies r.2 = appliedPolicies m).
Proof.
  intros r. subst r. split_and!.
  - intros err c Hlist.
    rewrite (ApplyACLRules_list_error m key rules err c Hlist).
    cbn [fst snd appliedPolicies].
    by erewrite since_app by (cbn [effects]; reflexivity).
  - intros eps c k rule err Hlist Hne Hk Hrule.
    destruct (proj2 (buildPolicies_Err_iff rules)) as [e He]; [eauto 6|].
    rewrite (ApplyACLRules_build_error m key rules eps c e Hlist Hne He).
    cbn [fst snd appliedPolicies].
    erewrite since_app by (cbn [effects]; reflexivity). eauto.
  - intros k rule err Hk Hrule.
    destruct (proj2 (buildPolicies_Err_iff rules)) as [e He]; [eauto 6|].
    destruct (ListEndpoints (client m)) as [[eps|err'] c] eqn:Hlist.
    + destruct eps as [|ep eps].
      * rewrite (ApplyACLRules_no_endpoints m key rules c Hlist).
        cbn [fst snd appliedPolicies].
        erewrite since_app by (cbn [effects]; reflexivity).
        by repeat constructor.
      * rewrite (ApplyACLRules_build_error m key rules (ep :: eps) c e
                   Hlist ltac:(done) He).
        cbn [fst snd appliedPolicies].
        erewrite since_app by (cbn [effects]; reflexivity).
        by repeat constructor.
    + rewrite (ApplyACLRules_list_error m key rules err' c Hlist).
      cbn [fst snd appliedPolicies].
      erewrite since_app by (cbn [effects]; reflexivity).
      by repeat constructor.
Qed.

(** ** Apply with no endpoint (C8) *)

(** C8 (amended): when endpoint enumeration succeeds with no endpoint,
    [ApplyACLRules] returns success, calls the host for nothing but the
    enumeration, and leaves the tracking map as it was: afterwards
    [GetAppliedPolicies] reports for the policy key what it reported
    before, and so not-found when the key was not tracked. *)
Theorem apply_without_endpoints_changes_nothing (m : Manager W) key rules c :
  ListEndpoints (client m) = (Ok [], c) →
  let r := ApplyACLRules json_Marshal key rules m in
  r.1 = None
  ∧ since m r.2 = [CallListEndpoints (Ok [])]
  ∧ appliedPolicies r.2 = appliedPolicies m
  ∧ GetAppliedPolicies key r.2 = GetAppliedPolicies key m
  ∧ (appliedPolicies m !! key = None →
       GetAppliedPolicies key r.2 = ([], false)).
Proof.
  intros Hlist r. subst r.
  rewrite (ApplyACLRules_no_endpoints m key rules c Hlist).
  cbn [fst snd appliedPolicies].
  erewrite since_app by (cbn [effects]; reflexivity).
  split_and!; try done.
  intros Hkey. unfold GetAppliedPolicies. cbn [appliedPolicies].
  by rewrite Hkey.
Qed.

(** ** Apply, then remove (C3) *)

(** C3: after [ApplyACLRules] and then [RemoveACLRules] for the same key,
    whatever the host did in either call and however it changed in between,
    [GetAppliedPolicies] reports the key as not found.  When the key was
    tracked, deleting its entry is the first thing the removal does: the
    host calls come after it, one lookup per tracked rule set, and nothing
    writes the map again. *)
Theorem apply_then_remove_untracks (m : Manager W) key rules (c : W) :
  let m1 := with_client (ApplyACLRules json_Marshal key rules m).2 c in
  let r := RemoveACLRules key m1 in
  GetAppliedPolicies key r.2 = ([], false)
  ∧ appliedPolicies r.2 = delete key (appliedPolicies m1)
  ∧ (key ∉ ListTrackedPolicies r.2)
  ∧ match appliedPolicies m1 !! key with
    | Some ruleSets =>
        (∃ calls, since m1 r.2 = MapDelete key :: calls
                  ∧ Forall (fun e => is_map_write e = false) calls
                  ∧ targets calls = EndpointID <$> ruleSets)
    | None => since m1 r.2 = []
    end.
Proof.
  intros m1 r. subst r.
  pose proof (RemoveACLRules_appliedPolicies m1 key) as Hmap.
  split_and!.
  - unfold GetAppliedPolicies. by rewrite Hmap, lookup_delete_eq.
  - done.
  - rewrite ListTrackedPolicies_elem, Hmap, lookup_delete_eq.
    by intros [? ?].
  - destruct (appliedPolicies m1 !! key) as [ruleSets|] eqn:Hkey.
    + destruct (RemoveACLRules_tracked_summary m1 key ruleSets Hkey)
        as (outcomes & Hlen & Hsince & Hfailed & Htargets & Hw & Herr).
      exists (remove_effects ruleSets outcomes). split_and!; try done.
      rewrite Hsince in Htargets. done.
    + rewrite RemoveACLRules_untracked by done. by apply since_refl.
Qed.

End manager_proofs.

(** ** The properties at concrete runs *)

Example buildPolicies_allow_http :
  buildPolicies plain_Marshal [allow_http] = Ok [http_policy].
Proof. vm_compute. done. Qed.

(** C2 at a host with two endpoints, the second of which refuses: one
    failure, an aggregate error, and one rule set tracked. *)
Lemma apply_fans_out_and_overwrites_witness :
  let r := ApplyACLRules plain_Marshal "default/test-policy" [allow_http]
             (NewManager partial_host) in
  is_aggregate r.1
  ∧ targets (since (NewManager partial_host) r.2) = ["ep-1"; "ep-2"]
  ∧ length (GetAppliedPolicies "default/test-policy" r.2).1 = 1%nat.
Proof.
  destruct (apply_fans_out_and_overwrites plain_Marshal
              (NewManager partial_host) "default/test-policy" [allow_http]
              [ep1; ep2] partial_host [http_policy])
    as (outcomes & Hlen & Hsince & Htargets & Hagg & Hnone & Herr & Hmap
        & Hget & Hcount).
  - reflexivity.
  - cbn. lia.
  - vm_compute. reflexivity.
  - split; [|split].
    + apply Hagg. vm_compute. lia.
    + exact Htargets.
    + rewrite Hget. cbn [fst]. rewrite Hcount. vm_compute. reflexivity.
Defined.

(** C9 at the mock host of [TestApplyACLRules_PartialFailure]: both
    installations fail, and the key is tracked with no rule set. *)
Lemma apply_all_failed_tracks_empty_witness :
  let r := ApplyACLRules plain_Marshal "default/test-policy" [allow_http]
             (NewManager (mock_failing_apply [ep1; ep2])) in
  appliedPolicies r.2 = <[ "default/test-policy" := [] ]> ∅
  ∧ GetAppliedPolicies "default/test-policy" r.2 = ([], true)
  ∧ "default/test-policy" ∈ ListTrackedPolicies r.2
  ∧ is_aggregate r.1
  ∧ ∃ errs, r.1 = Some (ErrApplyFailed 2 2 errs).
Proof.
  apply (apply_all_failed_tracks_empty plain_Marshal
           (NewManager (mock_failing_apply [ep1; ep2]))
           "default/test-policy" [allow_http]
           [ep1; ep2] (mock_failing_apply [ep1; ep2]) [http_policy]).
  - reflexivity.
  - cbn. lia.
  - vm_compute. reflexivity.
  - vm_compute. reflexivity.
Defined.

(** C4 as stated does not hold: at the mock host where both installations
    fail, all per-endpoint operations failed, and the call returns the
    aggregate error all the same. *)
Lemma aggregate_error_when_all_fail :
  let m := NewManager (mock_failing_apply [ep1; ep2]) in
  let r := ApplyACLRules plain_Marshal "default/test-policy" [allow_http] m in
  ¬ (is_aggregate r.1
     ↔ (1 ≤ failed (since m r.2)
        ∧ failed (since m r.2) < length (targets (since m r.2)))%nat).
Proof.
  intros m r [Hfwd _].
  assert (is_aggregate r.1) as Hagg by (vm_compute; exact I).
  apply Hfwd in Hagg as [_ Hlt].
  vm_compute in Hlt. lia.
Qed.

(** C4 at the host whose second endpoint refuses, for apply, and at the same
    host for the removal of what was tracked before. *)
Lemma aggregate_error_iff_some_failure_witness :
  let m := NewManager partial_host in
  let a := ApplyACLRules plain_Marshal "default/test-policy" [allow_http] m in
  ∃ eps c ruleSets errs,
    ListEndpoints (client m) = (Ok eps, c)
    ∧ targets (since m a.2) = Id <$> eps
    ∧ a.1 = Some (ErrApplyFailed (failed (since m a.2)) (length eps) errs)
    ∧ appliedPolicies a.2 = <[ "default/test-policy" := ruleSets ]>
                              (appliedPolicies m)
    ∧ length ruleSets = (length eps - failed (since m a.2))%nat.
Proof.
  intros m a.
  destruct (aggregate_error_iff_some_failure plain_Marshal m
              "default/test-policy" [allow_http]) as (_ & _ & Happly & _).
  apply Happly. vm_compute. exact I.
Defined.

(** C5 at the mock host whose enumeration fails, and at a host with one
    endpoint with an encoder that rejects the rule. *)
Lemma apply_fatal_errors_change_nothing_witness :
  (let m := NewManager mock_failing_list in
   let r := ApplyACLRules plain_Marshal "default/test-policy" [allow_http] m in
   r.1 = Some (ErrListEndpoints (errors_New "failed to list endpoints"))
   ∧ since m r.2
     = [CallListEndpoints (Err (errors_New "failed to list endpoints"))]
   ∧ appliedPolicies r.2 = appliedPolicies m)
  ∧ (let m := NewManager (mock_with_endpoints [ep1]) in
     let r := ApplyACLRules rejecting_Marshal "default/test-policy"
                [allow_http] m in
     (∃ e, buildPolicies rejecting_Marshal [allow_http] = Err e
           ∧ r.1 = Some (ErrBuildPolicies e))
     ∧ since m r.2 = [CallListEndpoints (Ok [ep1])]
     ∧ appliedPolicies r.2 = appliedPolicies m).
Proof.
  split.
  - intros m r.
    destruct (apply_fatal_errors_change_nothing plain_Marshal m
                "default/test-policy" [allow_http]) as (Hlist & _ & _).
    apply (Hlist _ mock_failing_list). reflexivity.
  - intros m r.
    destruct (apply_fatal_errors_change_nothing rejecting_Marshal m
                "default/test-policy" [allow_http]) as (_ & Hbuild & _).
    apply (Hbuild [ep1] (mock_with_endpoints [ep1]) 0%nat allow_http
             (errors_New "json: unsupported value")).
    + reflexivity.
    + discriminate.
    + reflexivity.
    + reflexivity.
Defined.

(** C8 as stated does not hold: a key tracked by an earlier apply is still
    reported as found after an apply that enumerates no endpoint. *)
Lemma apply_without_endpoints_keeps_entry :
  ¬ (∀ c, ListEndpoints (client tracked_then_no_endpoints) = (Ok [], c) →
          let r := ApplyACLRules plain_Marshal "default/test-policy"
                     [allow_http] tracked_then_no_endpoints in
          r.1 = None
          ∧ (GetAppliedPolicies "default/test-policy" r.2).2 = false).
Proof.
  intros Hclaim.
  destruct (Hclaim (mock_with_endpoints [])) as [_ Hfound]; [reflexivity|].
  vm_compute in Hfound. discriminate Hfound.
Qed.

(** C8 at a new manager on the mock host without endpoints
    ([TestApplyACLRules_NoEndpoints]). *)
Lemma apply_without_endpoints_changes_nothing_witness :
  let m := NewManager (mock_with_endpoints []) in
  let r := ApplyACLRules plain_Marshal "default/test-policy" [allow_http] m in
  r.1 = None
  ∧ since m r.2 = [CallListEndpoints (Ok [])]
  ∧ appliedPolicies r.2 = appliedPolicies m
  ∧ GetAppliedPolicies "default/test-policy" r.2
    = GetAppliedPolicies "default/test-policy" m
  ∧ (appliedPolicies m !! "default/test-policy" = None →
       GetAppliedPolicies "default/test-policy" r.2 = ([], false)).
Proof.
  apply (apply_without_endpoints_changes_nothing plain_Marshal
           (NewManager (mock_with_endpoints [])) "default/test-policy"
           [allow_http] (mock_with_endpoints [])).
  reflexivity.
Defined.

(** The round trip of [TestRemoveACLRules_GetEndpointError]: apply on one
    endpoint, then remove while endpoint lookup fails. *)
Example remove_with_lookup_error :
  let m1 := (ApplyACLRules plain_Marshal "default/test-policy" [allow_http]
               (NewManager (mock_with_endpoints [ep1]))).2 in
  let broken :=
    {| endpoints := [ep1]; listEndpointsErr := None;
       getEndpointErr := Some (errors_New "endpoint not found");
       applyPolicyErr := None; removePolicyErr := None;
       mock_appliedPolicies := ∅; mock_removedPolicies := ∅ |} in
  let r := RemoveACLRules "default/test-policy" (with_client m1 broken) in
  r.1 = Some (ErrRemoveFailed 1 1
                [ErrGetEndpoint "ep-1" (errors_New "endpoint not found")])
  ∧ GetAppliedPolicies "default/test-policy" r.2 = ([], false).
Proof. vm_compute. done. Qed.

(** * Further properties of the converter *)

Lemma elem_of_number_lookup (s : Z) ts rule :
  rule ∈ number s ts →
  ∃ (k : nat) t, ts !! k = Some t ∧ rule = t ((s + Z.of_nat k) mod 2 ^ 16).
Proof.
  intros Hrule. apply list_elem_of_lookup in Hrule as [k Hk].
  rewrite number_lookup in Hk.
  destruct (ts !! k) as [t|] eqn:Ht; simplify_eq/=. eauto.
Qed.

Lemma elem_of_resolved peers addr :
  addr ∈ resolved peers → addr ≠ "".
Proof.
  unfold resolved. intros Haddr.
  apply list_elem_of_fmap in Haddr as (peer & -> & Hpeer).
  by apply list_elem_of_filter in Hpeer as [Hres _].
Qed.

Lemma expansion_address ports peers pa :
  pa ∈ expansion ports peers → pa.2 ≠ "".
Proof.
  destruct ports as [|port ports], peers as [|peer peers];
    cbn [expansion]; intros Hpa.
  - apply list_elem_of_singleton in Hpa as ->. done.
  - apply list_elem_of_fmap in Hpa as (addr & -> & Haddr).
    by eapply elem_of_resolved.
  - apply list_elem_of_fmap in Hpa as (p & -> & _). done.
  - destruct pa as [p addr].
    apply list_elem_of_In, in_prod_iff in Hpa as [_ Haddr].
    apply list_elem_of_In in Haddr. by eapply elem_of_resolved.
Qed.

Lemma elem_of_flat_map {A B} (g : A → list B) (l : list A) (y : B) :
  y ∈ flat_map g l ↔ ∃ x, x ∈ l ∧ y ∈ g x.
Proof.
  rewrite list_elem_of_In, in_flat_map. split.
  - intros (x & Hx & Hy). exists x. by rewrite !list_elem_of_In.
  - intros (x & Hx & Hy). exists x. by rewrite <- !list_elem_of_In.
Qed.

Lemma elem_of_policy_expansion np dpa :
  dpa ∈ policy_expansion np →
  ∃ ports peers, dpa.2 ∈ expansion ports peers.
Proof.
  unfold policy_expansion. rewrite elem_of_app, !elem_of_flat_map.
  intros [(r & _ & Hr)|(r & _ & Hr)];
    apply list_elem_of_fmap in Hr as (pa & -> & Hpa); eauto.
Qed.

Lemma protocolToNumber_values proto :
  protocolToNumber proto ∈ ["6"; "17"; "132"].
Proof.
  destruct proto as [p|]; cbn; [|by left].
  repeat case_decide; by repeat constructor.
Qed.

(** X1: what every emitted rule looks like. *)
Theorem emitted_rules_shape (np : NetworkPolicy) (rule : ACLRule) :
  rule ∈ NetworkPolicyToACLRules np →
  Action rule = ActionTypeAllow
  ∧ RemoteAddresses rule ≠ ""
  ∧ 0 ≤ Priority rule < 2 ^ 16
  ∧ Protocol_ rule ∈ [""; "6"; "17"; "132"]
  ∧ ((Direction rule = DirectionTypeIn
      ∧ Name rule = Namespace np +:+ "/" +:+ np_Name np +:+ "-ingress"
      ∧ RemotePorts rule = "")
     ∨ (Direction rule = DirectionTypeOut
        ∧ Name rule = Namespace np +:+ "/" +:+ np_Name np +:+ "-egress"
        ∧ LocalPorts rule = "")).
Proof.
  rewrite NetworkPolicyToACLRules_number. intros Hrule.
  apply elem_of_number_lookup in Hrule as (k & t & Ht & ->).
  unfold templates in Ht. rewrite list_lookup_fmap in Ht.
  destruct (policy_expansion np !! k) as [[dir pa]|] eqn:Hk; simplify_eq/=.
  apply list_elem_of_lookup_2, elem_of_policy_expansion in Hk
    as (ports & peers & Hpa). cbn [snd] in Hpa.
  apply expansion_address in Hpa.
  assert (match pa.1 with
          | Some port => protocolToNumber (port_Protocol port)
          | None => ""
          end ∈ [""; "6"; "17"; "132"]) as Hproto.
  { destruct pa.1 as [port|]; [|by left].
    right. apply protocolToNumber_values. }
  assert (0 ≤ (100 + Z.of_nat k) mod 2 ^ 16 < 2 ^ 16) as Hrange
    by (apply Z.mod_pos_bound; lia).
  destruct dir; cbn -[Z.pow Z.modulo]; split_and!;
    first [done | by left | by right | apply Hrange].
Qed.

Lemma emitted_rules_shape_witness :
  let rule := {| Name := "default/allow-web-ingress";
                 Action := ActionTypeAllow; Direction := DirectionTypeIn;
                 Protocol_ := "6"; LocalPorts := "443"; RemotePorts := "";
                 RemoteAddresses := "10.0.0.0/8"; Priority := 102 |} in
  Action rule = ActionTypeAllow
  ∧ RemoteAddresses rule ≠ ""
  ∧ 0 ≤ Priority rule < 2 ^ 16
  ∧ Protocol_ rule ∈ [""; "6"; "17"; "132"]
  ∧ ((Direction rule = DirectionTypeIn
      ∧ Name rule
        = Namespace allow_web +:+ "/" +:+ np_Name allow_web +:+ "-ingress"
      ∧ RemotePorts rule = "")
     ∨ (Direction rule = DirectionTypeOut
        ∧ Name rule
          = Namespace allow_web +:+ "/" +:+ np_Name allow_web +:+ "-egress"
        ∧ LocalPorts rule = "")).
Proof.
  intros rule. apply (emitted_rules_shape allow_web rule).
  vm_compute. do 2 right. left.
Defined.

(** X2: the egress rules of a policy change nothing about what is emitted
    for its ingress rules. *)
Theorem ingress_rules_come_first_unchanged (np : NetworkPolicy) :
  ∃ egress_rules,
    NetworkPolicyToACLRules np
    = NetworkPolicyToACLRules (ingress_only np) ++ egress_rules
    ∧ Forall (fun rule => Direction rule = DirectionTypeIn)
             (NetworkPolicyToACLRules (ingress_only np))
    ∧ Forall (fun rule => Direction rule = DirectionTypeOut) egress_rules
    ∧ length egress_rules
      = sum_list ((fun r => expansion_size (egress_Ports r) (egress_To r))
                    <$> Egress (Spec np)).
Proof.
  rewrite !NetworkPolicyToACLRules_number, !templates_split.
  cbn [ingress_only Spec Ingress Egress flat_map]. rewrite app_nil_r.
  rewrite number_app. eexists. split; [done|]. split_and!.
  - apply Forall_forall. intros rule Hrule.
    apply elem_of_number in Hrule as (t & p & Ht & ->).
    apply elem_of_flat_map in Ht as (r & _ & Ht).
    by apply list_elem_of_fmap in Ht as (pa & -> & _).
  - apply Forall_forall. intros rule Hrule.
    apply elem_of_number in Hrule as (t & p & Ht & ->).
    apply elem_of_flat_map in Ht as (r & _ & Ht).
    by apply list_elem_of_fmap in Ht as (pa & -> & _).
  - rewrite length_number, length_flat_map. f_equal.
    apply list_fmap_ext. intros _ r _.
    by rewrite length_fmap, length_expansion.
Qed.

Lemma filter_length_0 {A} (P : A → Prop) `{!∀ x, Decision (P x)} (l : list A) :
  length (filter P l) = 0%nat ↔ Forall (fun x => ¬ P x) l.
Proof.
  induction l as [|x l IH]; [by split|].
  rewrite filter_cons, Forall_cons. destruct (decide (P x)); cbn.
  - split; [lia|]. by intros [? _].
  - rewrite IH. split; [by split|by intros [_ ?]].
Qed.

Lemma expansion_size_0 ports peers :
  expansion_size ports peers = 0%nat ↔ silent peers.
Proof.
  assert (Forall (fun peer => ¬ resolvable peer) peers
          ↔ Forall (fun peer => getPeerAddress peer = "") peers) as Hres.
  { apply Forall_iff. intros peer. unfold resolvable.
    destruct (decide (getPeerAddress peer = "")) as [He|Hne].
    - split; [done|]. intros _ Hres. by apply Hres.
    - split; [|done]. intros Hres. by destruct Hres. }
  unfold silent.
  destruct ports as [|port ports], peers as [|peer peers];
    cbn [expansion_size].
  - split; [lia|]. by intros [? _].
  - rewrite filter_length_0, Hres. split; [by split|by intros [_ ?]].
  - cbn. split; [lia|]. by intros [? _].
  - rewrite <- Hres, <- (filter_length_0 resolvable). cbn [length]. split.
    + intros Hzero. split; [done|nia].
    + intros [_ ->]. lia.
Qed.

Lemma sum_list_0 (l : list nat) :
  sum_list l = 0%nat ↔ Forall (fun n => n = 0%nat) l.
Proof.
  induction l as [|n l IH]; [by split|].
  cbn. rewrite Forall_cons, <- IH. lia.
Qed.

(** X3: a policy converts to no rule at all exactly when every one of its
    rules names peers none of which has an address. *)
Theorem conversion_empty_iff (np : NetworkPolicy) :
  NetworkPolicyToACLRules np = []
  ↔ Forall (fun r => silent (ingress_From r)) (Ingress (Spec np))
    ∧ Forall (fun r => silent (egress_To r)) (Egress (Spec np)).
Proof.
  rewrite <- length_zero_iff_nil, length_NetworkPolicyToACLRules.
  unfold policy_size.
  rewrite Nat.eq_add_0, !sum_list_0, !Forall_fmap.
  split; intros [Hin Heg]; split;
    (eapply Forall_impl; [eassumption|]); intros r; cbn;
    apply expansion_size_0.
Qed.

(** ** What the converter does not read *)

Lemma getPeerAddress_bare peer :
  getPeerAddress (bare_peer peer) = getPeerAddress peer.
Proof. unfold getPeerAddress, bare_peer. by destruct (peer_IPBlock peer). Qed.

Lemma resolved_bare peers : resolved (bare_peer <$> peers) = resolved peers.
Proof.
  unfold resolved. induction peers as [|peer peers IH]; [done|].
  rewrite fmap_cons, !filter_cons.
  destruct (decide (resolvable peer)) as [Hres|Hres].
  - rewrite decide_True
      by (unfold resolvable in *; by rewrite getPeerAddress_bare).
    by rewrite !fmap_cons, getPeerAddress_bare, IH.
  - rewrite decide_False
      by (unfold resolvable in *; by rewrite getPeerAddress_bare).
    done.
Qed.

Lemma emitted_rule_bare np dir port addr :
  emitted_rule (bare_policy np) dir (Some (bare_port port), addr)
  = emitted_rule np dir (Some port, addr).
Proof. by destruct dir. Qed.

Lemma expansion_peers_only peers :
  peers ≠ [] →
  expansion [] peers = (fun addr => (None, addr)) <$> resolved peers.
Proof. by destruct peers. Qed.

Lemma expansion_ports_only ports :
  ports ≠ [] →
  expansion ports [] = (fun port => (Some port, "0.0.0.0/0")) <$> ports.
Proof. by destruct ports. Qed.

Lemma expansion_cross ports peers :
  ports ≠ [] → peers ≠ [] →
  expansion ports peers = list_prod (Some <$> ports) (resolved peers).
Proof. by destruct ports, peers. Qed.

Lemma expansion_bare np dir ports peers :
  emitted_rule (bare_policy np) dir
    <$> expansion (bare_port <$> ports) (bare_peer <$> peers)
  = emitted_rule np dir <$> expansion ports peers.
Proof.
  destruct (decide (ports = [])) as [->|Hports],
           (decide (peers = [])) as [->|Hpeers].
  - by destruct dir.
  - rewrite fmap_nil, !expansion_peers_only
      by (by destruct peers).
    rewrite resolved_bare, <- !list_fmap_compose.
    apply list_fmap_ext. intros _ addr _. by destruct dir.
  - rewrite fmap_nil, !expansion_ports_only
      by (by destruct ports).
    rewrite <- !list_fmap_compose.
    apply list_fmap_ext. intros _ p _. apply emitted_rule_bare.
  - rewrite !expansion_cross
      by first [done | by destruct ports | by destruct peers].
    rewrite resolved_bare, <- list_fmap_compose, !list_prod_fmap_l,
      <- !list_fmap_compose.
    apply list_fmap_ext. intros _ [p addr] _. apply emitted_rule_bare.
Qed.

Lemma flat_map_fmap {A B C} (g : B → list C) (f : A → B) (l : list A) :
  flat_map g (f <$> l) = flat_map (fun x => g (f x)) l.
Proof. induction l as [|x l IH]; [done|]. cbn. by rewrite <- IH. Qed.

(** X4: the converter reads the CIDR of an address block, the protocol and
    the port of a port entry, and nothing else of them: the exceptions of an
    address block, the end of a port range and the selectors of the policy
    and of its peers make no difference to the rules. *)
Theorem conversion_reads_cidr_protocol_port_only (np : NetworkPolicy) :
  NetworkPolicyToACLRules (bare_policy np) = NetworkPolicyToACLRules np.
Proof.
  rewrite !NetworkPolicyToACLRules_number, !templates_split. f_equal.
  cbn [bare_policy Spec Ingress Egress]. rewrite !flat_map_fmap.
  f_equal; apply flat_map_ext; intros r; cbn; apply expansion_bare.
Qed.

(** X16: as long as a policy expands to at most 65536 rules, no two of its
    rules have the same priority. *)
Theorem priorities_distinct (np : NetworkPolicy) :
  Z.of_nat (length (NetworkPolicyToACLRules np)) ≤ 65536 →
  NoDup (priorities (NetworkPolicyToACLRules np)).
Proof.
  rewrite length_NetworkPolicyToACLRules. intros Hsize.
  apply NoDup_alt. intros i j p Hi Hj.
  apply priorities_lookup_Some in Hi as [Hilt Hi].
  apply priorities_lookup_Some in Hj as [Hjlt Hj].
  rewrite Hi in Hj. clear Hi.
  change (2 ^ 16) with 65536 in Hj.
  Z.to_euclidean_division_equations. lia.
Qed.

Lemma priorities_distinct_witness :
  NoDup (priorities (NetworkPolicyToACLRules allow_web)).
Proof.
  apply (priorities_distinct allow_web). vm_compute. discriminate.
Defined.

(** * Further properties of the manager *)

Lemma applied_ruleSets_all_accept policies eps outcomes :
  length outcomes = length eps →
  apply_errors eps outcomes = [] →
  applied_ruleSets policies eps outcomes = rule_set_of policies <$> eps.
Proof.
  revert outcomes. induction eps as [|ep eps IH];
    intros [|o outcomes] Hlen Herrs; try done.
  injection Hlen as Hlen.
  rewrite apply_errors_cons in Herrs. rewrite applied_ruleSets_cons.
  destruct o as [err|]; [done|]. cbn [app] in *.
  by rewrite fmap_cons, IH.
Qed.

Lemma applied_ruleSets_policies policies eps outcomes :
  Forall (fun rs => rs_Policies rs = policies)
         (applied_ruleSets policies eps outcomes).
Proof.
  revert outcomes. induction eps as [|ep eps IH];
    intros [|o outcomes]; try by constructor.
  rewrite applied_ruleSets_cons. apply Forall_app. split; [|apply IH].
  destruct o; by repeat constructor.
Qed.

Lemma apply_calls_apply_effect key policies eps outcomes :
  Forall (apply_effect key) (apply_calls policies eps outcomes).
Proof.
  revert outcomes. induction eps as [|ep eps IH];
    intros [|o outcomes];
    first [by constructor
          | rewrite apply_calls_cons; constructor; [done|apply IH]].
Qed.

Lemma remove_effects_remove_effect key ruleSets outcomes :
  Forall (remove_effect key) (remove_effects ruleSets outcomes).
Proof.
  revert outcomes. induction ruleSets as [|rs ruleSets IH];
    intros [|o outcomes]; try by constructor.
  rewrite remove_effects_cons. apply Forall_app. split; [|apply IH].
  destruct o; by repeat constructor.
Qed.

Lemma length_remove_errors ruleSets outcomes :
  (length (remove_errors ruleSets outcomes) ≤ length ruleSets)%nat.
Proof.
  revert outcomes. induction ruleSets as [|rs ruleSets IH];
    intros [|o outcomes]; cbn [length]; try (cbn; lia).
  rewrite remove_errors_cons, length_app.
  specialize (IH outcomes). destruct (remove_error rs o); cbn; lia.
Qed.

Section manager_extras.
Context {W : Type} `{!HCNClient W}.
Variable json_Marshal : AclPolicySetting → result string.

(** ** [buildPolicies] *)

Lemma buildPolicies_from_Ok_inv i rules acc policies :
  buildPolicies_from json_Marshal i rules acc = Ok policies →
  ∃ new, policies = acc ++ new ∧ Forall2 (encodes_to json_Marshal) rules new.
Proof.
  revert i acc. induction rules as [|rule rules IH]; intros i acc Hb.
  - cbn in Hb. injection Hb as <-. exists []. by rewrite app_nil_r.
  - cbn in Hb.
    destruct (json_Marshal (aclSetting rule)) as [js|err] eqn:Hrule; [|done].
    apply IH in Hb as (new & -> & Hnew).
    exists ({| policy_Type := ACL; Settings := js |} :: new).
    rewrite <- app_assoc. split; [done|]. by constructor.
Qed.

Lemma buildPolicies_from_first_error i rules acc e :
  buildPolicies_from json_Marshal i rules acc = Err e →
  ∃ (k : nat) rule err,
    e = ErrMarshal (i + k) err
    ∧ rules !! k = Some rule
    ∧ json_Marshal (aclSetting rule) = Err err
    ∧ ∀ (j : nat) earlier, (j < k)%nat → rules !! j = Some earlier →
        ∃ js, json_Marshal (aclSetting earlier) = Ok js.
Proof.
  revert i acc. induction rules as [|rule rules IH]; intros i acc Hb; [done|].
  cbn in Hb.
  destruct (json_Marshal (aclSetting rule)) as [js|err] eqn:Hrule.
  - apply IH in Hb as (k & rule' & err & -> & Hk & Herr & Hearlier).
    exists (S k), rule', err. split_and!; try done.
    + f_equal. lia.
    + intros [|j] earlier Hj Hlookup; cbn in Hlookup.
      * injection Hlookup as <-. eauto.
      * eapply (Hearlier j); [lia|done].
  - injection Hb as <-. exists 0%nat, rule, err.
    split_and!; try done; [f_equal; lia|]. intros j earlier Hj. lia.
Qed.

(** X5: [buildPolicies] turns the rules, in order, into as many ACL policies,
    each holding the encoding of its rule; and when it fails, the error
    names the first rule that does not encode. *)
Theorem buildPolicies_shape (rules : list ACLRule) :
  match buildPolicies json_Marshal rules with
  | Ok policies =>
      Forall2 (encodes_to json_Marshal) rules policies
      ∧ length policies = length rules
  | Err e =>
      ∃ (k : nat) rule err,
        e = ErrMarshal k err
        ∧ rules !! k = Some rule
        ∧ json_Marshal (aclSetting rule) = Err err
        ∧ ∀ (j : nat) earlier, (j < k)%nat → rules !! j = Some earlier →
            ∃ js, json_Marshal (aclSetting earlier) = Ok js
  end.
Proof.
  destruct (buildPolicies json_Marshal rules) as [policies|e] eqn:Hb.
  - apply buildPolicies_from_Ok_inv in Hb as (new & -> & Hnew).
    split; [done|]. symmetry. by eapply Forall2_length.
  - by apply buildPolicies_from_first_error in Hb.
Qed.

Lemma buildPolicies_ACL rules policies :
  buildPolicies json_Marshal rules = Ok policies →
  Forall (fun p => policy_Type p = ACL) policies
  ∧ length policies = length rules.
Proof.
  intros Hb. apply buildPolicies_from_Ok_inv in Hb as (new & -> & Hnew).
  cbn [app]. split; [|symmetry; by eapply Forall2_length].
  induction Hnew as [|rule p rules new [Hacl _] _ IH]; by constructor.
Qed.

(** ** The tracking map after a call *)

(** [ApplyACLRules] leaves the map alone or stores, under its key, rule sets
    made of policies that [buildPolicies] gave for its rules. *)
Lemma ApplyACLRules_appliedPolicies (m : Manager W) key rules :
  appliedPolicies (ApplyACLRules json_Marshal key rules m).2
    = appliedPolicies m
  ∨ ∃ eps outcomes policies,
      buildPolicies json_Marshal rules = Ok policies
      ∧ appliedPolicies (ApplyACLRules json_Marshal key rules m).2
        = <[key := applied_ruleSets policies eps outcomes]> (appliedPolicies m).
Proof.
  destruct (ListEndpoints (client m)) as [[eps|err] c] eqn:Hlist.
  - destruct eps as [|ep eps].
    + left. by rewrite (ApplyACLRules_no_endpoints _ m key rules c Hlist).
    + destruct (buildPolicies json_Marshal rules) as [policies|e] eqn:Hb.
      * right.
        destruct (ApplyACLRules_fanout _ m key rules (ep :: eps) c policies
                    Hlist ltac:(done) Hb) as (outcomes & c' & _ & ->).
        by exists (ep :: eps), outcomes, policies.
      * left. by rewrite (ApplyACLRules_build_error _ m key rules (ep :: eps)
                            c e Hlist ltac:(done) Hb).
  - left. by rewrite (ApplyACLRules_list_error _ m key rules err c Hlist).
Qed.

(** X6: a call for one key leaves the entries of all other keys as they
    were. *)
Theorem calls_leave_other_keys_alone (m : Manager W) key other rules :
  other ≠ key →
  GetAppliedPolicies other (ApplyACLRules json_Marshal key rules m).2
    = GetAppliedPolicies other m
  ∧ GetAppliedPolicies other (RemoveACLRules key m).2
    = GetAppliedPolicies other m.
Proof.
  intros Hne. unfold GetAppliedPolicies. split.
  - destruct (ApplyACLRules_appliedPolicies m key rules)
      as [->|(eps & outcomes & policies & _ & ->)]; [done|].
    by rewrite lookup_insert_ne.
  - by rewrite RemoveACLRules_appliedPolicies, lookup_delete_ne.
Qed.

(** X7: removing a key twice: the second call finds nothing, returns
    success, calls nothing and changes nothing, whatever the first one met
    and whatever the host has become. *)
Theorem remove_twice_is_remove_once (m : Manager W) key (c : W) :
  let m1 := with_client (RemoveACLRules key m).2 c in
  RemoveACLRules key m1 = (None, m1).
Proof.
  intros m1. apply RemoveACLRules_untracked. subst m1.
  cbn [with_client appliedPolicies].
  by rewrite RemoveACLRules_appliedPolicies, lookup_delete_eq.
Qed.

(** X8: the removal of a tracked key works from the record alone: after the
    deletion it looks up the endpoint of each tracked rule set, in order; a
    failed lookup skips that rule set, a successful one is followed by one
    removal request on the endpoint found, carrying exactly the policies
    recorded at apply time; the error, if any, counts the rule sets that
    failed either way. *)
Theorem remove_replays_recorded_policies (m : Manager W) key ruleSets :
  appliedPolicies m !! key = Some ruleSets →
  let r := RemoveACLRules key m in
  ∃ outcomes,
    length outcomes = length ruleSets
    ∧ since m r.2 = MapDelete key :: remove_effects ruleSets outcomes
    ∧ r.1 = match remove_errors ruleSets outcomes with
            | [] => None
            | errs => Some (ErrRemoveFailed (length errs) (length ruleSets) errs)
            end
    ∧ (length (remove_errors ruleSets outcomes) ≤ length ruleSets)%nat.
Proof.
  intros Hkey r. subst r.
  destruct (RemoveACLRules_tracked_summary m key ruleSets Hkey)
    as (outcomes & Hlen & Hsince & Hfailed & Htargets & Hw & Herr).
  exists outcomes. split_and!; try done.
  - rewrite Herr. destruct (remove_errors ruleSets outcomes); [done|].
    by rewrite decide_True by (cbn; lia).
  - apply length_remove_errors.
Qed.

(** X9: what the two calls never do.  [ApplyACLRules] starts with the
    enumeration and otherwise only installs (request type [Add]) and stores
    under its key: it looks up no endpoint, removes nothing from the host and
    deletes nothing from the map.  [RemoveACLRules] only looks endpoints up,
    removes (request type [Remove]) and deletes its key: it enumerates
    nothing, installs nothing and stores nothing. *)
Theorem calls_have_only_their_effects (m : Manager W) key rules :
  Forall (apply_effect key) (since m (ApplyACLRules json_Marshal key rules m).2)
  ∧ head (since m (ApplyACLRules json_Marshal key rules m).2)
    = Some (CallListEndpoints (ListEndpoints (client m)).1)
  ∧ Forall (remove_effect key) (since m (RemoveACLRules key m).2).
Proof.
  split_and!.
  - destruct (ListEndpoints (client m)) as [[eps|err] c] eqn:Hlist.
    + destruct eps as [|ep eps].
      * rewrite (ApplyACLRules_no_endpoints _ m key rules c Hlist).
        cbn [snd]. erewrite since_app by (cbn [effects]; reflexivity).
        by repeat constructor.
      * destruct (buildPolicies json_Marshal rules) as [policies|e] eqn:Hb.
        -- destruct (ApplyACLRules_fanout_summary _ m key rules (ep :: eps) c
                       policies Hlist ltac:(done) Hb)
             as (outcomes & _ & -> & _).
           apply Forall_app. split; [by repeat constructor|].
           apply Forall_app. split; [|by repeat constructor].
           apply apply_calls_apply_effect.
        -- rewrite (ApplyACLRules_build_error _ m key rules (ep :: eps) c e
                      Hlist ltac:(done) Hb).
           cbn [snd]. erewrite since_app by (cbn [effects]; reflexivity).
           by repeat constructor.
    + rewrite (ApplyACLRules_list_error _ m key rules err c Hlist).
      cbn [snd]. erewrite since_app by (cbn [effects]; reflexivity).
      by repeat constructor.
  - destruct (ListEndpoints (client m)) as [[eps|err] c] eqn:Hlist.
    + destruct eps as [|ep eps].
      * rewrite (ApplyACLRules_no_endpoints _ m key rules c Hlist).
        cbn [snd]. by erewrite since_app by (cbn [effects]; reflexivity).
      * destruct (buildPolicies json_Marshal rules) as [policies|e] eqn:Hb.
        -- by destruct (ApplyACLRules_fanout_summary _ m key rules (ep :: eps)
                          c policies Hlist ltac:(done) Hb)
             as (outcomes & _ & -> & _).
        -- rewrite (ApplyACLRules_build_error _ m key rules (ep :: eps) c e
                      Hlist ltac:(done) Hb).
           cbn [snd]. by erewrite since_app by (cbn [effects]; reflexivity).
    + rewrite (ApplyACLRules_list_error _ m key rules err c Hlist).
      cbn [snd]. by erewrite since_app by (cbn [effects]; reflexivity).
  - destruct (appliedPolicies m !! key) as [ruleSets|] eqn:Hkey.
    + destruct (RemoveACLRules_tracked_summary m key ruleSets Hkey)
        as (outcomes & _ & -> & _).
      constructor; [done|]. apply remove_effects_remove_effect.
    + rewrite RemoveACLRules_untracked by done.
      rewrite since_refl by done. constructor.
Qed.

(** X10: when the endpoints are enumerated and the rules encode,
    [ApplyACLRules] returns success exactly when the entry it stores has one
    rule set for every enumerated endpoint, in the order of the
    enumeration. *)
Theorem apply_success_iff_every_endpoint_tracked (m : Manager W) key rules
    eps c policies :
  ListEndpoints (client m) = (Ok eps, c) →
  eps ≠ [] →
  buildPolicies json_Marshal rules = Ok policies →
  let r := ApplyACLRules json_Marshal key rules m in
  r.1 = None
  ↔ appliedPolicies r.2 !! key = Some (rule_set_of policies <$> eps).
Proof.
  intros Hlist Hne Hbuild r. subst r.
  destruct (ApplyACLRules_fanout_summary _ m key rules eps c policies
              Hlist Hne Hbuild)
    as (outcomes & Hlen & _ & _ & _ & Hsum & -> & ->).
  rewrite lookup_insert_eq. split.
  - case_decide; [done|]. intros _. f_equal.
    apply applied_ruleSets_all_accept; [done|].
    apply nil_length_inv. lia.
  - intros Heq. injection Heq as Heq. rewrite Heq, length_fmap in Hsum.
    by rewrite decide_False by lia.
Qed.

(** X11: in every state the manager can reach, each tracked entry is made of
    rule sets that hold one and the same list of policies, all of them ACL
    policies. *)
Theorem tracked_entries_well_formed (m : Manager W) key ruleSets :
  reachable json_Marshal m →
  appliedPolicies m !! key = Some ruleSets →
  entry_well_formed ruleSets.
Proof.
  intros Hreach. revert key ruleSets.
  induction Hreach as [c|m c _ IH|m k rules _ IH|m k _ IH];
    intros key ruleSets Hkey.
  - done.
  - by eapply IH.
  - destruct (ApplyACLRules_appliedPolicies m k rules)
      as [Hsame|(eps & outcomes & policies & Hb & Hins)].
    + rewrite Hsame in Hkey. by eapply IH.
    + rewrite Hins in Hkey.
      destruct (decide (k = key)) as [->|Hne].
      * rewrite lookup_insert_eq in Hkey. injection Hkey as <-.
        exists policies. split.
        -- by apply buildPolicies_ACL in Hb as [? _].
        -- apply applied_ruleSets_policies.
      * rewrite lookup_insert_ne in Hkey by done. by eapply IH.
  - rewrite RemoveACLRules_appliedPolicies in Hkey.
    apply lookup_delete_Some in Hkey as [_ Hkey]. by eapply IH.
Qed.

(** X12: the two accessors agree: [ListTrackedPolicies] lists every key that
    [GetAppliedPolicies] reports as found, each once, and no other. *)
Theorem accessors_agree (m : Manager W) :
  NoDup (ListTrackedPolicies m)
  ∧ length (ListTrackedPolicies m) = size (appliedPolicies m)
  ∧ ∀ key, key ∈ ListTrackedPolicies m
           ↔ (GetAppliedPolicies key m).2 = true.
Proof.
  split_and!.
  - apply NoDup_fst_map_to_list.
  - unfold ListTrackedPolicies. by rewrite length_fmap, length_map_to_list.
  - intros key. rewrite ListTrackedPolicies_elem. unfold GetAppliedPolicies.
    destruct (appliedPolicies m !! key); cbn; split;
      first [done | by intros [? ?]].
Qed.

End manager_extras.

(** * Properties of the reconciler *)

Section controller_proofs.
Context {W : Type} `{!HCNClient W}.
Variable json_Marshal : AclPolicySetting → result string.
Variable Get : NamespacedName → result NetworkPolicy.
Variable IsNotFound : error → bool.

(** X13: [Reconcile] never sets [Requeue]; it returns an error in two cases
    only: the cluster lookup failed with something other than not-found, and
    then the manager is untouched and no delay is asked for; or the policy
    exists and [ApplyACLRules] failed on its rules, and then the delay is 30
    seconds.  Without an error there is no delay. *)
Theorem Reconcile_error_paths (m : Manager W) (req : Request) :
  let name := req_NamespacedName req in
  let key := NamespacedName_String name in
  let r := Reconcile json_Marshal Get IsNotFound req m in
  Requeue r.1.1 = false
  ∧ (r.1.2 = None → RequeueAfter r.1.1 = 0)
  ∧ (∀ err, r.1.2 = Some err →
       (Get name = Err err ∧ IsNotFound err = false
        ∧ RequeueAfter r.1.1 = 0 ∧ r.2 = m)
       ∨ (∃ np, Get name = Ok np
                ∧ (ApplyACLRules json_Marshal key
                     (NetworkPolicyToACLRules np) m).1 = Some err
                ∧ RequeueAfter r.1.1 = 30000000000)).
Proof.
  intros name key r. subst name key r. unfold Reconcile.
  destruct (Get (req_NamespacedName req)) as [np|err] eqn:Hget.
  - unfold bind.
    destruct (ApplyACLRules json_Marshal _ _ m) as [[e|] m'] eqn:Happly;
      cbn; split_and!; try done.
    intros err [= <-]. right. exists np. by rewrite Happly.
  - destruct (IsNotFound err) eqn:Hnf.
    + unfold reconcileDelete, bind.
      destruct (RemoveACLRules _ m) as [[e|] m']; cbn; by split_and!.
    + cbn. split_and!; try done. intros e [= <-]. by left.
Qed.

(** X14: [Reconcile] for a policy the cluster no longer has removes its
    rules and reports success with no delay, whatever the removal met on the
    host; afterwards the key is not tracked. *)
Theorem Reconcile_of_deleted_policy (m : Manager W) (req : Request) err :
  Get (req_NamespacedName req) = Err err →
  IsNotFound err = true →
  let key := NamespacedName_String (req_NamespacedName req) in
  let r := Reconcile json_Marshal Get IsNotFound req m in
  r.1 = ({| Requeue := false; RequeueAfter := 0 |}, None)
  ∧ r.2 = (RemoveACLRules key m).2
  ∧ GetAppliedPolicies key r.2 = ([], false).
Proof.
  intros Hget Hnf key r. subst key r. unfold Reconcile.
  rewrite Hget, Hnf. unfold reconcileDelete, bind.
  pose proof (RemoveACLRules_appliedPolicies m
                (NamespacedName_String (req_NamespacedName req))) as Hmap.
  destruct (RemoveACLRules _ m) as [[e|] m']; cbn in *;
    (split_and!; [done|done|]); unfold GetAppliedPolicies;
    by rewrite Hmap, lookup_delete_eq.
Qed.

(** X15: from policy to tracked state.  When the cluster has the policy, the
    host enumerates at least one endpoint, settings always encode and
    [Reconcile] returns no error, the key is tracked with one rule set per
    enumerated endpoint, in order, each holding the same policies: one ACL
    policy per rule of the conversion, as many as the policy expands to. *)
Theorem Reconcile_success_tracks_policy (m : Manager W) (req : Request)
    np eps c :
  Get (req_NamespacedName req) = Ok np →
  ListEndpoints (client m) = (Ok eps, c) →
  eps ≠ [] →
  (∀ setting, ∃ js, json_Marshal setting = Ok js) →
  let key := NamespacedName_String (req_NamespacedName req) in
  let r := Reconcile json_Marshal Get IsNotFound req m in
  r.1.2 = None →
  ∃ policies,
    Forall2 (encodes_to json_Marshal) (NetworkPolicyToACLRules np) policies
    ∧ length policies = policy_size np
    ∧ GetAppliedPolicies key r.2 = (rule_set_of policies <$> eps, true)
    ∧ r.1.1 = {| Requeue := false; RequeueAfter := 0 |}.
Proof.
  intros Hget Hlist Hne Hmarshal key r. subst key r. unfold Reconcile.
  rewrite Hget. unfold bind.
  destruct (buildPolicies_from_Ok json_Marshal 0 (NetworkPolicyToACLRules np) [])
    as (policies & Hb & _); [intros; apply Hmarshal|].
  fold (buildPolicies json_Marshal (NetworkPolicyToACLRules np)) in Hb.
  destruct (ApplyACLRules_fanout_summary json_Marshal m
              (NamespacedName_String (req_NamespacedName req))
              (NetworkPolicyToACLRules np) eps c policies Hlist Hne Hb)
    as (outcomes & Hlen & _ & _ & _ & Hsum & Hmap & Herr).
  destruct (ApplyACLRules json_Marshal _ _ m) as [[e|] m'] eqn:Happly;
    cbn [fst snd] in *; [done|]. intros _.
  exists policies.
  pose proof (buildPolicies_from_Ok_inv json_Marshal _ _ _ _ Hb)
    as (new & Hnew & Hall). cbn [app] in Hnew. subst new.
  split_and!.
  - done.
  - rewrite <- (Forall2_length _ _ _ Hall).
    apply length_NetworkPolicyToACLRules.
  - rewrite applied_ruleSets_all_accept in Hmap;
      [by eapply GetAppliedPolicies_insert|done|].
    apply nil_length_inv. case_decide; [done|lia].
  - done.
Qed.

End controller_proofs.

(** ** The further properties at concrete runs *)

Lemma calls_leave_other_keys_alone_witness :
  GetAppliedPolicies "default/test-policy"
    (ApplyACLRules plain_Marshal "kube-system/dns" [allow_http]
       tracked_on_ep1).2
  = GetAppliedPolicies "default/test-policy" tracked_on_ep1
  ∧ GetAppliedPolicies "default/test-policy"
      (RemoveACLRules "kube-system/dns" tracked_on_ep1).2
    = GetAppliedPolicies "default/test-policy" tracked_on_ep1.
Proof.
  apply (calls_leave_other_keys_alone plain_Marshal tracked_on_ep1
           "kube-system/dns" "default/test-policy" [allow_http]).
  discriminate.
Defined.

Lemma remove_replays_recorded_policies_witness :
  let m := with_client tracked_on_ep1 (mock_failing_lookup [ep1]) in
  let ruleSets := [rule_set_of [http_policy] ep1] in
  let r := RemoveACLRules "default/test-policy" m in
  ∃ outcomes,
    length outcomes = length ruleSets
    ∧ since m r.2
      = MapDelete "default/test-policy" :: remove_effects ruleSets outcomes
    ∧ r.1 = match remove_errors ruleSets outcomes with
            | [] => None
            | errs => Some (ErrRemoveFailed (length errs) (length ruleSets) errs)
            end
    ∧ (length (remove_errors ruleSets outcomes) ≤ length ruleSets)%nat.
Proof.
  intros m ruleSets.
  apply (remove_replays_recorded_policies m "default/test-policy" ruleSets).
  vm_compute. reflexivity.
Defined.

Lemma apply_success_iff_every_endpoint_tracked_witness :
  let m := NewManager (mock_with_endpoints [ep1; ep2]) in
  let r := ApplyACLRules plain_Marshal "default/test-policy" [allow_http] m in
  r.1 = None
  ↔ appliedPolicies r.2 !! "default/test-policy"
    = Some (rule_set_of [http_policy] <$> [ep1; ep2]).
Proof.
  intros m.
  apply (apply_success_iff_every_endpoint_tracked plain_Marshal m
           "default/test-policy" [allow_http] [ep1; ep2]
           (mock_with_endpoints [ep1; ep2]) [http_policy]).
  - reflexivity.
  - discriminate.
  - vm_compute. reflexivity.
Defined.

Lemma tracked_entries_well_formed_witness :
  entry_well_formed [rule_set_of [http_policy] ep1].
Proof.
  apply (tracked_entries_well_formed plain_Marshal tracked_on_ep1
           "default/test-policy").
  - apply reachable_apply, reachable_new.
  - vm_compute. reflexivity.
Defined.

Lemma Reconcile_error_paths_witness :
  let m := NewManager (mock_with_endpoints [ep1]) in
  let r := Reconcile plain_Marshal unreachable_cluster is_not_found
             allow_web_request m in
  (unreachable_cluster (req_NamespacedName allow_web_request)
   = Err (errors_New "connection refused")
   ∧ is_not_found (errors_New "connection refused") = false
   ∧ RequeueAfter r.1.1 = 0 ∧ r.2 = m)
  ∨ (∃ np, unreachable_cluster (req_NamespacedName allow_web_request) = Ok np
           ∧ (ApplyACLRules plain_Marshal
                (NamespacedName_String (req_NamespacedName allow_web_request))
                (NetworkPolicyToACLRules np) m).1
             = Some (errors_New "connection refused")
           ∧ RequeueAfter r.1.1 = 30000000000).
Proof.
  intros m.
  destruct (Reconcile_error_paths plain_Marshal unreachable_cluster
              is_not_found m allow_web_request) as (_ & _ & Herr).
  apply Herr. reflexivity.
Defined.

Lemma Reconcile_of_deleted_policy_witness :
  let m := with_client tracked_on_ep1 (mock_failing_lookup [ep1]) in
  let req := {| req_NamespacedName :=
                  {| nn_Namespace := "default"; nn_Name := "test-policy" |} |} in
  let r := Reconcile plain_Marshal empty_cluster is_not_found req m in
  r.1 = ({| Requeue := false; RequeueAfter := 0 |}, None)
  ∧ r.2 = (RemoveACLRules "default/test-policy" m).2
  ∧ GetAppliedPolicies "default/test-policy" r.2 = ([], false).
Proof.
  intros m req.
  apply (Reconcile_of_deleted_policy plain_Marshal empty_cluster is_not_found
           m req (errors_New "not found")); reflexivity.
Defined.

Lemma Reconcile_success_tracks_policy_witness :
  let m := NewManager (mock_with_endpoints [ep1; ep2]) in
  let r := Reconcile plain_Marshal (cluster_of allow_web) is_not_found
             allow_web_request m in
  ∃ policies,
    Forall2 (encodes_to plain_Marshal) (NetworkPolicyToACLRules allow_web)
            policies
    ∧ length policies = policy_size allow_web
    ∧ GetAppliedPolicies "default/allow-web" r.2
      = (rule_set_of policies <$> [ep1; ep2], true)
    ∧ r.1.1 = {| Requeue := false; RequeueAfter := 0 |}.
Proof.
  intros m.
  apply (Reconcile_success_tracks_policy plain_Marshal (cluster_of allow_web)
           is_not_found m allow_web_request allow_web [ep1; ep2]
           (mock_with_endpoints [ep1; ep2])).
  - reflexivity.
  - reflexivity.
  - discriminate.
  - intros setting. eexists. reflexivity.
  - vm_compute. reflexivity.
Defined.

(** The request of [TestReconcile_DeleteNetworkPolicy], with the host failing
    every endpoint lookup: the removal fails, the reconciler reports
    success. *)
Example reconcile_delete_swallows_error :
  let m := with_client tracked_on_ep1 (mock_failing_lookup [ep1]) in
  let req := {| req_NamespacedName :=
                  {| nn_Namespace := "default"; nn_Name := "test-policy" |} |} in
  (RemoveACLRules "default/test-policy" m).1
  = Some (ErrRemoveFailed 1 1
            [ErrGetEndpoint "ep-1" (errors_New "endpoint not found")])
  ∧ (Reconcile plain_Marshal empty_cluster is_not_found req m).1
    = ({| Requeue := false; RequeueAfter := 0 |}, None).
Proof. vm_compute. done. Qed.
